(** * File ingestion and Drive backup pipeline of the referral system

    A shallow embedding of
    - [files/file.service.ts]   (class [FileService]),
    - [drive/drive.service.ts]  (class [DriveService]),
    - [notifications/notification.service.ts]
      ([NotificationService.sendDriveSyncFailureAlert] and its helpers),
    followed by the properties of the pipeline.

    Conventions.  The Prisma tables, the remote Drive, the local disk and the
    queue of background continuations form one explicit store, [World].
    Every [async] method is a computation in the monad [M], which threads the
    store and carries a thrown [Error] by its message.  What the outside world
    decides (a failing Drive request, a failing ledger insert, the verdict of
    the scanner, the outcome of a disk write, generated identifiers) is an
    input: either an argument or a script held in the store. *)

From Stdlib Require Import ZArith Strings.Ascii Strings.String.
From Stdlib Require Import Floats.PrimFloat Floats.FloatOps Floats.SpecFloat.
From Stdlib Require Numbers.Cyclic.Int63.Uint63.
From stdpp Require Import gmap strings list fin_maps pretty.

(** ** Data model (the Prisma models the services read and write) *)

Inductive DriveSyncStatus := PENDING | SYNCING | SYNCED | FAILED.

(** [File.virusScanStatus] holds one of the literals 'pending', 'scanning',
    'infected', 'clean' and 'error' ([scan_error] here). *)
Inductive VirusScanStatus := pending | scanning | infected | clean | scan_error.

(** Of the enum [DriveSyncAction] the services use the member [UPLOAD]. *)
Inductive DriveSyncAction := UPLOAD.

Inductive UserRole := ADMIN | OTHER_ROLE.

Inductive NotificationType := DRIVE_SYNC_FAILED.

Global Instance DriveSyncStatus_eq_dec : EqDecision DriveSyncStatus.
Proof. solve_decision. Defined.
Global Instance VirusScanStatus_eq_dec : EqDecision VirusScanStatus.
Proof. solve_decision. Defined.
Global Instance UserRole_eq_dec : EqDecision UserRole.
Proof. solve_decision. Defined.

Record File := {
  file_id : string;
  submissionId : string;
  filename : string;
  originalFilename : string;
  filePath : string;
  fileSize : Z;
  mimeType : string;
  virusScanStatus : VirusScanStatus;
  virusScanResult : option string;
  virusScanAt : option Z;
  driveSyncStatus : DriveSyncStatus;
  driveSyncAttempts : Z;
  googleDriveId : option string;
  googleDriveUrl : option string;
  lastDriveSyncAt : option Z;
  driveSyncError : option string;
  deletedAt : option Z;
}.

Record Submission := {
  referenceId : string;
  submitterId : string;
  googleDriveFolderId : option string;
  googleDriveFolderUrl : option string;
  sub_driveSyncStatus : DriveSyncStatus;
  sub_lastDriveSyncAt : option Z;
  sub_driveSyncError : option string;
  driveSyncRetries : Z;
}.

Record User := {
  user_name : string;
  user_email : string;
  role : UserRole;
  isActive : bool;
}.

(** One row of the table [driveSyncLog]. *)
Record DriveSyncLog := {
  log_fileId : string;
  log_action : DriveSyncAction;
  log_status : string;
  attemptNumber : Z;
  errorMessage : option string;
}.

(** One row of [emailQueue]; the rendered HTML body is left out. *)
Record Email := {
  email_to : string;
  email_subject : string;
  email_priority : Z;
}.

Record Notification := {
  notif_userId : string;
  notif_type : NotificationType;
  notif_title : string;
  notif_message : string;
  notif_link : option string;
}.

(** ** The remote Drive *)

Definition FOLDER_MIME : string := "application/vnd.google-apps.folder".

Record DriveItem := {
  item_id : string;
  item_name : string;
  item_parents : list string;
  item_mimeType : option string;
  item_body : list Byte.byte;
}.

(** Requests sent to the Drive API, in the order they were issued. *)
Inductive ApiCall :=
  | ApiList (name parent : string)
  | ApiCreateFolder (name parent : string)
  | ApiCreateFile (name parent : string)
  | ApiUpdate (fileId addParents removeParents : string).

Global Instance ApiCall_eq_dec : EqDecision ApiCall.
Proof. solve_decision. Defined.

(** ** Background continuations of one uploaded file

    [FileService.uploadFile] starts [scanFileAsync] and [uploadToDriveAsync]
    without awaiting them.  Each runs up to its next awaited effect when the
    scheduler picks it; the program counters below name those points. *)

Inductive ScanPc :=
  | ScanQueued      (* before the update to 'scanning' *)
  | ScanRunning     (* 'scanning' written, awaiting scanWithClamAV *)
  | ScanPurging     (* 'infected' written, awaiting unlink *)
  | ScanDone.

Inductive SyncPc :=
  | SyncQueued            (* before the first findUnique *)
  | SyncPolling (i : Z)   (* in the loop, sleeping with counter i *)
  | SyncRefetch           (* after the loop, before the re-fetch *)
  | SyncDone.

Record Task := {
  task_filePath : string;   (* the argument of scanFileAsync *)
  scan_pc : ScanPc;
  sync_pc : SyncPc;
}.

(** ** Configuration read from the process environment *)

Record Config := {
  rootFolderId : string;     (* GOOGLE_DRIVE_ROOT_FOLDER_ID || '' *)
  uploadDir : string;        (* UPLOAD_DIR || <default> *)
  development : bool;        (* NODE_ENV === 'development' *)
  appUrl : string;           (* APP_URL || 'http://localhost:3000' *)
}.

(** ** The store *)

Record World := {
  files : gmap string File;
  submissions : gmap string Submission;
  users : gmap string User;
  driveSyncLog : list DriveSyncLog;
  emailQueue : list Email;
  notifications : list Notification;
  drive : list DriveItem;
  api_calls : list ApiCall;
  disk : gmap string (list Byte.byte);
  tasks : gmap string Task;
  (* scripts of the environment: the head decides the next request;
     [None], or an exhausted script, lets it succeed *)
  drive_faults : list (option string);
  ledger_faults : list (option string);
  clock : Z;
  config : Config;
}.

Definition set_files (g : gmap string File → gmap string File) (w : World) : World :=
  Build_World (g (files w)) (submissions w) (users w) (driveSyncLog w) (emailQueue w)
    (notifications w) (drive w) (api_calls w) (disk w) (tasks w) (drive_faults w)
    (ledger_faults w) (clock w) (config w).

Definition set_submissions (g : gmap string Submission → gmap string Submission)
    (w : World) : World :=
  Build_World (files w) (g (submissions w)) (users w) (driveSyncLog w) (emailQueue w)
    (notifications w) (drive w) (api_calls w) (disk w) (tasks w) (drive_faults w)
    (ledger_faults w) (clock w) (config w).

Definition set_driveSyncLog (g : list DriveSyncLog → list DriveSyncLog) (w : World) : World :=
  Build_World (files w) (submissions w) (users w) (g (driveSyncLog w)) (emailQueue w)
    (notifications w) (drive w) (api_calls w) (disk w) (tasks w) (drive_faults w)
    (ledger_faults w) (clock w) (config w).

Definition set_emailQueue (g : list Email → list Email) (w : World) : World :=
  Build_World (files w) (submissions w) (users w) (driveSyncLog w) (g (emailQueue w))
    (notifications w) (drive w) (api_calls w) (disk w) (tasks w) (drive_faults w)
    (ledger_faults w) (clock w) (config w).

Definition set_notifications (g : list Notification → list Notification) (w : World) : World :=
  Build_World (files w) (submissions w) (users w) (driveSyncLog w) (emailQueue w)
    (g (notifications w)) (drive w) (api_calls w) (disk w) (tasks w) (drive_faults w)
    (ledger_faults w) (clock w) (config w).

Definition set_drive (g : list DriveItem → list DriveItem) (w : World) : World :=
  Build_World (files w) (submissions w) (users w) (driveSyncLog w) (emailQueue w)
    (notifications w) (g (drive w)) (api_calls w) (disk w) (tasks w) (drive_faults w)
    (ledger_faults w) (clock w) (config w).

Definition set_api_calls (g : list ApiCall → list ApiCall) (w : World) : World :=
  Build_World (files w) (submissions w) (users w) (driveSyncLog w) (emailQueue w)
    (notifications w) (drive w) (g (api_calls w)) (disk w) (tasks w) (drive_faults w)
    (ledger_faults w) (clock w) (config w).

Definition set_disk (g : gmap string (list Byte.byte) → gmap string (list Byte.byte))
    (w : World) : World :=
  Build_World (files w) (submissions w) (users w) (driveSyncLog w) (emailQueue w)
    (notifications w) (drive w) (api_calls w) (g (disk w)) (tasks w) (drive_faults w)
    (ledger_faults w) (clock w) (config w).

Definition set_tasks (g : gmap string Task → gmap string Task) (w : World) : World :=
  Build_World (files w) (submissions w) (users w) (driveSyncLog w) (emailQueue w)
    (notifications w) (drive w) (api_calls w) (disk w) (g (tasks w)) (drive_faults w)
    (ledger_faults w) (clock w) (config w).

Definition set_drive_faults (g : list (option string) → list (option string))
    (w : World) : World :=
  Build_World (files w) (submissions w) (users w) (driveSyncLog w) (emailQueue w)
    (notifications w) (drive w) (api_calls w) (disk w) (tasks w) (g (drive_faults w))
    (ledger_faults w) (clock w) (config w).

Definition set_ledger_faults (g : list (option string) → list (option string))
    (w : World) : World :=
  Build_World (files w) (submissions w) (users w) (driveSyncLog w) (emailQueue w)
    (notifications w) (drive w) (api_calls w) (disk w) (tasks w) (drive_faults w)
    (g (ledger_faults w)) (clock w) (config w).

Definition set_clock (g : Z → Z) (w : World) : World :=
  Build_World (files w) (submissions w) (users w) (driveSyncLog w) (emailQueue w)
    (notifications w) (drive w) (api_calls w) (disk w) (tasks w) (drive_faults w)
    (ledger_faults w) (g (clock w)) (config w).

(** ** The monad of [async] methods *)

Inductive Res (A : Type) :=
  | Ok (a : A)
  | Throw (msg : string).
Arguments Ok {A} a.
Arguments Throw {A} msg.

Definition M (A : Type) : Type := World → Res A * World.

Definition ret {A} (a : A) : M A := λ w, (Ok a, w).
Definition throw {A} (msg : string) : M A := λ w, (Throw msg, w).

Definition bind {A B} (m : M A) (k : A → M B) : M B :=
  λ w, match m w with
       | (Ok a, w') => k a w'
       | (Throw e, w') => (Throw e, w')
       end.

(** [try { m } catch (error) { h error.message }] *)
Definition try_catch {A} (m : M A) (h : string → M A) : M A :=
  λ w, match m w with
       | (Ok a, w') => (Ok a, w')
       | (Throw e, w') => h e w'
       end.

Definition gets {A} (f : World → A) : M A := λ w, (Ok (f w), w).
Definition modify (g : World → World) : M unit := λ w, (Ok tt, g w).

Notation "'let*' x ':=' m 'in' k" := (bind m (λ x, k))
  (at level 10, x binder, m at level 100, k at level 200).
Notation "m ';;;' k" := (bind m (λ _, k))
  (at level 100, k at level 200, right associativity).

(** JavaScript's [a || b] on strings: the empty string is falsy. *)
Definition str_or (a b : string) : string := if decide (a = "") then b else a.

(** [new Date()] *)
Definition new_Date : M Z := gets clock.

(** ** Prisma and Drive primitives *)

(** The message of Prisma's error for an update of a missing row. *)
Definition RECORD_NOT_FOUND : string := "Record to update not found.".

(** [prisma.file.update({ where: { id }, data })] *)
Definition file_update (id : string) (data : File → File) : M unit :=
  λ w, match files w !! id with
       | Some f => (Ok tt, set_files (<[id := data f]>) w)
       | None => (Throw RECORD_NOT_FOUND, w)
       end.

(** [prisma.submission.update({ where: { id }, data })] *)
Definition submission_update (id : string) (data : Submission → Submission) : M unit :=
  λ w, match submissions w !! id with
       | Some s => (Ok tt, set_submissions (<[id := data s]>) w)
       | None => (Throw RECORD_NOT_FOUND, w)
       end.

(** Every request to the Drive is recorded; the script decides whether it
    is answered or rejected. *)
Definition drive_request (c : ApiCall) : M unit :=
  λ w, let w1 := set_api_calls (λ l, l ++ [c]) w in
       match drive_faults w with
       | Some e :: rest => (Throw e, set_drive_faults (λ _, rest) w1)
       | None :: rest => (Ok tt, set_drive_faults (λ _, rest) w1)
       | [] => (Ok tt, w1)
       end.

(** The identifier the Drive gives to its next item. *)
Definition fresh_id (items : list DriveItem) : string :=
  "drive-" +:+ pretty (length items).

Definition webViewLink_of (id : string) : string :=
  "https://drive.google.com/file/d/" +:+ id +:+ "/view".

Definition is_folder_named (name parent : string) (it : DriveItem) : bool :=
  bool_decide (item_name it = name)
  && bool_decide (parent ∈ item_parents it)
  && bool_decide (item_mimeType it = Some FOLDER_MIME).

(** [drive.files.list] with the query
    [name='..' and '..' in parents and mimeType='..folder' and trashed=false]. *)
Definition drive_files_list (name parent : string) : M (list DriveItem) :=
  drive_request (ApiList name parent) ;;;
  gets (λ w, filter (λ it, is_folder_named name parent it = true) (drive w)).

(** [drive.files.create] without media: the answer carries the new id. *)
Definition drive_files_create_folder (name parent : string) : M string :=
  drive_request (ApiCreateFolder name parent) ;;;
  let* id := gets (λ w, fresh_id (drive w)) in
  modify (set_drive (λ l, l ++ [Build_DriveItem id name [parent] (Some FOLDER_MIME) []])) ;;;
  ret id.

Definition ENOENT : string := "ENOENT: no such file or directory".

(** [drive.files.create] with [media.body = fs.createReadStream(filePath)]. *)
Definition drive_files_create_media (name parent mime filePath : string)
    : M (string * string) :=
  let* body := gets (λ w, disk w !! filePath) in
  match body with
  | None => throw ENOENT
  | Some bytes =>
      drive_request (ApiCreateFile name parent) ;;;
      let* id := gets (λ w, fresh_id (drive w)) in
      modify (set_drive (λ l, l ++ [Build_DriveItem id name [parent] (Some mime) bytes])) ;;;
      ret (id, webViewLink_of id)
  end.

Definition reparent (addParents removeParents : string) (it : DriveItem) : DriveItem :=
  {| item_id := item_id it; item_name := item_name it;
     item_parents := filter (λ p, p ≠ removeParents) (item_parents it) ++ [addParents];
     item_mimeType := item_mimeType it; item_body := item_body it |}.

(** [drive.files.update] with [addParents] and [removeParents]. *)
Definition drive_files_update (fileId addParents removeParents : string) : M unit :=
  drive_request (ApiUpdate fileId addParents removeParents) ;;;
  let* known := gets (λ w, bool_decide (fileId ∈ item_id <$> drive w)) in
  if (known : bool) then
    modify (set_drive (fmap (λ it, if decide (item_id it = fileId)
                                   then reparent addParents removeParents it else it)))
  else throw ("File not found: " +:+ fileId).

(** * DriveService *)

Module DriveService.

Record DriveUploadOptions := {
  opt_submissionId : string;
  opt_fileId : string;
  opt_filePath : string;
  opt_filename : string;
  opt_mimeType : string;
}.

Record DriveUploadResult := {
  res_fileId : string;
  res_webViewLink : string;
  res_success : bool;
}.

(** [createFolder] *)
Definition createFolder (folderName parentFolderId : string) : M string :=
  drive_files_create_folder folderName parentFolderId.

(** [getOrCreateFolder]: search, reuse [files[0]] when the search answers
    anything, create otherwise. *)
Definition reuse_or_create (folderName parentFolderId : string)
    (response : list DriveItem) : M string :=
  match response with
  | f :: _ => ret (item_id f)
  | [] => createFolder folderName parentFolderId
  end.

Definition getOrCreateFolder (folderName parentFolderId : string) : M string :=
  let* response := drive_files_list folderName parentFolderId in
  reuse_or_create folderName parentFolderId response.

Definition folderUrl_of (id : string) : string :=
  "https://drive.google.com/drive/folders/" +:+ id.

(** [createSubmissionFolder(submissionId, referenceId)]; [year] and [month]
    are [now.getFullYear().toString()] and the long English month name. *)
Definition createSubmissionFolder (year month : string)
    (submissionId reference : string) : M (string * string) :=
  try_catch
    (let* root := gets (λ w, rootFolderId (config w)) in
     let* yearFolderId := getOrCreateFolder year root in
     let* monthFolderId := getOrCreateFolder month yearFolderId in
     let submissionFolderName := reference in
     let* submissionFolderId := createFolder submissionFolderName monthFolderId in
     let folderUrl := folderUrl_of submissionFolderId in
     let* now := new_Date in
     submission_update submissionId (λ s,
       {| referenceId := referenceId s;
          submitterId := submitterId s;
          googleDriveFolderId := Some submissionFolderId;
          googleDriveFolderUrl := Some folderUrl;
          sub_driveSyncStatus := SYNCED;
          sub_lastDriveSyncAt := Some now;
          sub_driveSyncError := sub_driveSyncError s;
          driveSyncRetries := driveSyncRetries s |}) ;;;
     ret (submissionFolderId, folderUrl))
    (λ error,
     submission_update submissionId (λ s,
       {| referenceId := referenceId s;
          submitterId := submitterId s;
          googleDriveFolderId := googleDriveFolderId s;
          googleDriveFolderUrl := googleDriveFolderUrl s;
          sub_driveSyncStatus := FAILED;
          sub_lastDriveSyncAt := sub_lastDriveSyncAt s;
          sub_driveSyncError := Some error;
          driveSyncRetries := (driveSyncRetries s + 1)%Z |}) ;;;
     throw error).

(** [logDriveSync]: one insert into the ledger; a failing insert is logged
    and swallowed. *)
Definition logDriveSync (fileId : string) (action : DriveSyncAction) (status : string)
    (attempt : Z) (errorMessage : option string) : M unit :=
  λ w, let row := Build_DriveSyncLog fileId action status attempt errorMessage in
       match ledger_faults w with
       | Some _ :: rest => (Ok tt, set_ledger_faults (λ _, rest) w)
       | None :: rest =>
           (Ok tt, set_ledger_faults (λ _, rest) (set_driveSyncLog (λ l, l ++ [row]) w))
       | [] => (Ok tt, set_driveSyncLog (λ l, l ++ [row]) w)
       end.

(** [performUpload] *)
Definition performUpload (filePath filename mimeType parentFolderId : string)
    : M (string * string) :=
  drive_files_create_media filename parentFolderId mimeType filePath.

Definition maxRetries : Z := 3.

(** [data] of the three updates [uploadFile] makes to the file row. *)
Definition mark_syncing (attempt : Z) (f : File) : File :=
  {| file_id := file_id f; submissionId := submissionId f; filename := filename f;
     originalFilename := originalFilename f; filePath := filePath f;
     fileSize := fileSize f; mimeType := mimeType f;
     virusScanStatus := virusScanStatus f; virusScanResult := virusScanResult f;
     virusScanAt := virusScanAt f;
     driveSyncStatus := SYNCING;
     driveSyncAttempts := attempt;
     googleDriveId := googleDriveId f; googleDriveUrl := googleDriveUrl f;
     lastDriveSyncAt := lastDriveSyncAt f; driveSyncError := driveSyncError f;
     deletedAt := deletedAt f |}.

Definition mark_synced (driveId link : string) (now : Z) (f : File) : File :=
  {| file_id := file_id f; submissionId := submissionId f; filename := filename f;
     originalFilename := originalFilename f; filePath := filePath f;
     fileSize := fileSize f; mimeType := mimeType f;
     virusScanStatus := virusScanStatus f; virusScanResult := virusScanResult f;
     virusScanAt := virusScanAt f;
     driveSyncStatus := SYNCED;
     driveSyncAttempts := driveSyncAttempts f;
     googleDriveId := Some driveId; googleDriveUrl := Some link;
     lastDriveSyncAt := Some now; driveSyncError := None;
     deletedAt := deletedAt f |}.

Definition mark_failed (message : string) (f : File) : File :=
  {| file_id := file_id f; submissionId := submissionId f; filename := filename f;
     originalFilename := originalFilename f; filePath := filePath f;
     fileSize := fileSize f; mimeType := mimeType f;
     virusScanStatus := virusScanStatus f; virusScanResult := virusScanResult f;
     virusScanAt := virusScanAt f;
     driveSyncStatus := FAILED;
     driveSyncAttempts := driveSyncAttempts f;
     googleDriveId := googleDriveId f; googleDriveUrl := googleDriveUrl f;
     lastDriveSyncAt := lastDriveSyncAt f; driveSyncError := Some message;
     deletedAt := deletedAt f |}.

(** The body of the [try] block of one attempt. *)
Definition upload_attempt (o : DriveUploadOptions) (folderId : string) (attempt : Z)
    : M DriveUploadResult :=
  file_update (opt_fileId o) (mark_syncing attempt) ;;;
  logDriveSync (opt_fileId o) UPLOAD "started" attempt None ;;;
  let* result := performUpload (opt_filePath o) (opt_filename o) (opt_mimeType o) folderId in
  let* now := new_Date in
  file_update (opt_fileId o) (mark_synced (fst result) (snd result) now) ;;;
  logDriveSync (opt_fileId o) UPLOAD "success" attempt None ;;;
  ret (Build_DriveUploadResult (fst result) (snd result) true).

(** One turn of the loop: the [try] block and its [catch].  [inl] is the
    value the [try] block returns, [inr] the message of the caught error. *)
Definition guarded_attempt (o : DriveUploadOptions) (folderId : string) (attempt : Z)
    : M (DriveUploadResult + string) :=
  try_catch
    (let* res := upload_attempt o folderId attempt in ret (inl res))
    (λ error,
     logDriveSync (opt_fileId o) UPLOAD "failed" attempt (Some error) ;;;
     ret (inr error)).

(** [for (let attempt = 1; attempt <= maxRetries; attempt++) { try .. catch .. }].
    The answer is [inl] of the value returned from inside the loop, or
    [inr lastError] when the loop runs out.  The wait between two attempts
    ([setTimeout] of the backoff delay) changes nothing in the store. *)
Fixpoint upload_loop (fuel : nat) (o : DriveUploadOptions) (folderId : string)
    (attempt : Z) (lastError : option string) : M (DriveUploadResult + option string) :=
  match fuel with
  | O => ret (inr lastError)
  | S fuel' =>
      if (attempt <=? maxRetries)%Z then
        let* r := guarded_attempt o folderId attempt in
        match r with
        | inl res => ret (inl res)
        | inr error => upload_loop fuel' o folderId (attempt + 1)%Z (Some error)
        end
      else ret (inr lastError)
  end.

Definition NO_FOLDER : string := "Submission Drive folder not found".
Definition AFTER_RETRIES : string := "Upload failed after retries".

(** [!submission?.googleDriveFolderId] is false exactly when the row exists
    and the field holds a non-empty string. *)
Definition folder_of (s : option Submission) : option string :=
  match s with
  | Some s' =>
      match googleDriveFolderId s' with
      | Some id => if decide (id = "") then None else Some id
      | None => None
      end
  | None => None
  end.

(** [uploadFile] *)
Definition uploadFile (o : DriveUploadOptions) : M DriveUploadResult :=
  let* submission := gets (λ w, submissions w !! opt_submissionId o) in
  match folder_of submission with
  | None => throw NO_FOLDER
  | Some folderId =>
      let* r := upload_loop (Z.to_nat maxRetries) o folderId 1%Z None in
      match r with
      | inl res => ret res
      | inr lastError =>
          file_update (opt_fileId o)
            (mark_failed (match lastError with
                          | Some m => str_or m AFTER_RETRIES
                          | None => AFTER_RETRIES
                          end)) ;;;
          throw (match lastError with Some m => m | None => AFTER_RETRIES end)
      end
  end.

Definition NOT_FOUND : string := "File not found".
Definition NOT_FAILED : string := "File is not in failed state".

(** [retryFailedSync] *)
Definition retryFailedSync (fileId : string) : M unit :=
  let* file := gets (λ w, files w !! fileId) in
  match file with
  | None => throw NOT_FOUND
  | Some f =>
      if decide (driveSyncStatus f ≠ FAILED) then throw NOT_FAILED
      else
        uploadFile {| opt_submissionId := submissionId f;
                      opt_fileId := file_id f;
                      opt_filePath := filePath f;
                      opt_filename := originalFilename f;
                      opt_mimeType := mimeType f |} ;;;
        ret tt
  end.

(** [uploadFileResumable]; [fs.statSync(filePath)] throws when the path
    holds no file. *)
Definition uploadFileResumable (o : DriveUploadOptions) : M DriveUploadResult :=
  try_catch
    (let* submission := gets (λ w, submissions w !! opt_submissionId o) in
     match folder_of submission with
     | None => throw NO_FOLDER
     | Some folderId =>
         let* stat := gets (λ w, disk w !! opt_filePath o) in
         match stat with
         | None => throw ENOENT
         | Some _ =>
             let* response :=
               drive_files_create_media (opt_filename o) folderId (opt_mimeType o)
                 (opt_filePath o) in
             ret (Build_DriveUploadResult (fst response) (snd response) true)
         end
     end)
    (λ error, throw error).

(** [archiveSubmission] *)
Definition archiveSubmission (submissionId : string) : M unit :=
  try_catch
    (let* submission := gets (λ w, submissions w !! submissionId) in
     match folder_of submission with
     | None => ret tt
     | Some folderId =>
         let* root := gets (λ w, rootFolderId (config w)) in
         let* archiveFolderId := getOrCreateFolder "Archive" root in
         drive_files_update folderId archiveFolderId folderId
     end)
    (λ error, throw error).

(** *** [getSyncStats] *)

Module SyncStats.

Record t := {
  totalFiles : Z;
  syncedFiles : Z;
  failedFiles : Z;
  pendingFiles : Z;
  syncingFiles : Z;
  syncSuccessRate : float;
}.

(** A JavaScript number holding a count. *)
Definition number_of_Z (z : Z) : float := PrimFloat.of_uint63 (Uint63.of_Z z).

(** [x.toFixed(2)] for a finite [x >= 0]: the decimal it prints is [n / 100]
    for the integer [n] nearest to [100 x], the larger one on a tie.  The
    value is [n]. *)
Definition toFixed2 (x : float) : Z :=
  match Prim2SF x with
  | S754_finite false m e =>
      if (0 <=? e)%Z then (100 * Z.pos m * 2 ^ e)%Z
      else ((200 * Z.pos m + 2 ^ (- e)) / (2 * 2 ^ (- e)))%Z
  | _ => 0%Z
  end.

(** [parseFloat] of the decimal [n / 100]: the double nearest to it, which
    is the correctly rounded quotient of the two exact doubles. *)
Definition parseFloat_hundredths (n : Z) : float :=
  PrimFloat.div (number_of_Z n) (number_of_Z 100).

(** [prisma.file.count({ where: { driveSyncStatus } })] *)
Definition count_status (st : DriveSyncStatus) (w : World) : Z :=
  Z.of_nat (size (filter (λ kv : string * File, driveSyncStatus kv.2 = st) (files w))).

(** [prisma.file.count()] *)
Definition count_all (w : World) : Z := Z.of_nat (size (files w)).

Definition rate (syncedFiles totalFiles : Z) : float :=
  if (0 <? totalFiles)%Z then
    parseFloat_hundredths
      (toFixed2 (PrimFloat.mul
                   (PrimFloat.div (number_of_Z syncedFiles) (number_of_Z totalFiles))
                   (number_of_Z 100)))
  else number_of_Z 0.

End SyncStats.

Definition getSyncStats : M SyncStats.t :=
  let* totalFiles := gets SyncStats.count_all in
  let* syncedFiles := gets (SyncStats.count_status SYNCED) in
  let* failedFiles := gets (SyncStats.count_status FAILED) in
  let* pendingFiles := gets (SyncStats.count_status PENDING) in
  ret {| SyncStats.totalFiles := totalFiles;
         SyncStats.syncedFiles := syncedFiles;
         SyncStats.failedFiles := failedFiles;
         SyncStats.pendingFiles := pendingFiles;
         SyncStats.syncingFiles := (totalFiles - syncedFiles - failedFiles - pendingFiles)%Z;
         SyncStats.syncSuccessRate := SyncStats.rate syncedFiles totalFiles |}.

End DriveService.


(** * NotificationService (the Drive failure alert) *)

Module NotificationService.

(** [sendEmail]: the mail is queued. *)
Definition sendEmail (to subject : string) : M unit :=
  modify (set_emailQueue (λ q, q ++ [Build_Email to subject 5])).

(** [createNotification] *)
Definition createNotification (userId : string) (type : NotificationType)
    (title message : string) (link : option string) : M unit :=
  modify (set_notifications (λ l, l ++ [Build_Notification userId type title message link])).

Definition alert_admin (submissionId : string) (s : Submission) (admin : string * User)
    : M unit :=
  sendEmail (user_email admin.2)
    ("[ALERT] Google Drive Sync Failed: " +:+ referenceId s) ;;;
  createNotification admin.1 DRIVE_SYNC_FAILED "Drive Sync Failed"
    ("Failed to sync " +:+ referenceId s +:+ " to Google Drive")
    (Some ("/admin/submissions/" +:+ submissionId)).

Fixpoint for_each {A} (l : list A) (body : A → M unit) : M unit :=
  match l with
  | [] => ret tt
  | x :: l' => body x ;;; for_each l' body
  end.

(** [sendDriveSyncFailureAlert(submissionId, error)] *)
Definition sendDriveSyncFailureAlert (submissionId : string) (error : string) : M unit :=
  try_catch
    (let* admins := gets (λ w, map_to_list
                            (filter (λ kv : string * User,
                                       role kv.2 = ADMIN ∧ isActive kv.2 = true) (users w))) in
     let* submission := gets (λ w, submissions w !! submissionId) in
     match submission with
     | None => ret tt
     | Some s =>
         let* submitter := gets (λ w, users w !! submitterId s) in
         match submitter with
         | None => throw "Cannot read properties of null (reading 'name')"
         | Some _ => for_each admins (alert_admin submissionId s)
         end
     end)
    (λ _, ret tt).

End NotificationService.

(** * Node's [path] module and the local disk *)

(** The three functions of [path] the service calls.  The service is stated
    over any implementation; [posix_path] below is the one used to run it. *)
Class PathLib := {
  extname : string → string;
  basename : string → string → string;
  join : string → string → string;
}.

Module Posix.

(** The scan of [path.posix.extname], from the last character down.  The
    state is (startDot, startPart, end, matchedSlash, preDotState, stopped);
    [stopped] stands for the [break]. *)
Definition ExtState : Type := Z * Z * Z * bool * Z * bool.

Definition ext_step (st : ExtState) (ic : Z * ascii) : ExtState :=
  let '(startDot, startPart, end_, matchedSlash, preDotState, stopped) := st in
  let '(i, code) := ic in
  if stopped then st
  else if decide (code = "/"%char) then
    if negb matchedSlash then (startDot, (i + 1)%Z, end_, matchedSlash, preDotState, true)
    else st
  else
    let '(end1, matched1) :=
      if (end_ =? -1)%Z then ((i + 1)%Z, false) else (end_, matchedSlash) in
    if decide (code = "."%char) then
      if (startDot =? -1)%Z then (i, startPart, end1, matched1, preDotState, false)
      else (startDot, startPart, end1, matched1, 1%Z, false)
    else if negb (startDot =? -1)%Z then (startDot, startPart, end1, matched1, (-1)%Z, false)
    else (startDot, startPart, end1, matched1, preDotState, false).

Fixpoint indexed (i : Z) (l : list ascii) : list (Z * ascii) :=
  match l with
  | [] => []
  | c :: l' => (i, c) :: indexed (i + 1)%Z l'
  end.

Definition slice (s : string) (from to : Z) : string :=
  String.substring (Z.to_nat from) (Z.to_nat (to - from)) s.

Definition extname (p : string) : string :=
  let chars := indexed 0 (list_ascii_of_string p) in
  let '(startDot, startPart, end_, _, preDotState, _) :=
    fold_left ext_step (rev chars) ((-1)%Z, 0%Z, (-1)%Z, true, 0%Z, false) in
  if (startDot =? -1)%Z || (end_ =? -1)%Z || (preDotState =? 0)%Z
     || ((preDotState =? 1)%Z && (startDot =? end_ - 1)%Z && (startDot =? startPart + 1)%Z)
  then ""
  else slice p startDot end_.

Fixpoint ends_with (s suffix : list ascii) : bool :=
  bool_decide (s = suffix) ||
  match s with
  | [] => false
  | _ :: s' => ends_with s' suffix
  end.

(** [path.posix.basename(p, suffix)] on a name that holds no ['/']. *)
Definition basename (p suffix : string) : string :=
  if decide (suffix = "") then p
  else if decide (suffix = p) then ""
  else if ends_with (list_ascii_of_string p) (list_ascii_of_string suffix)
       then String.substring 0 (String.length p - String.length suffix) p
       else p.

(** [path.posix.join(dir, name)] for a directory without a trailing ['/']
    and a plain name. *)
Definition join (dir name : string) : string := dir +:+ "/" +:+ name.

End Posix.

Definition posix_path : PathLib :=
  {| extname := Posix.extname; basename := Posix.basename; join := Posix.join |}.

(** How [fs.promises.writeFile] ended: it opens the path for writing, which
    creates or empties the file, then writes the buffer piece by piece. *)
Inductive WriteOutcome :=
  | WriteDone
  | WriteFailsAtOpen (msg : string)
  | WriteFailsAfter (written : nat) (msg : string).

Definition fs_writeFile (path : string) (buffer : list Byte.byte) (wo : WriteOutcome)
    : M unit :=
  match wo with
  | WriteDone => modify (set_disk (<[path := buffer]>))
  | WriteFailsAtOpen msg => throw msg
  | WriteFailsAfter n msg => modify (set_disk (<[path := take n buffer]>)) ;;; throw msg
  end.

(** [unlinkAsync] *)
Definition fs_unlink (path : string) : M unit :=
  λ w, match disk w !! path with
       | Some _ => (Ok tt, set_disk (delete path) w)
       | None => (Throw ENOENT, w)
       end.

(** * FileService *)

Module FileService.

Record UploadFileDto := {
  dto_submissionId : string;
  dto_originalFilename : string;
  dto_mimeType : string;
  dto_buffer : list Byte.byte;
}.

Definition MAX_FILE_SIZE : Z := 50 * 1024 * 1024.
Definition MAX_TOTAL_SIZE : Z := 200 * 1024 * 1024.
Definition MAX_FILES_PER_SUBMISSION : Z := 10.

Definition ALLOWED_MIMETYPES : list string :=
  [ "application/vnd.openxmlformats-officedocument.wordprocessingml.document";
    "application/msword";
    "application/vnd.openxmlformats-officedocument.presentationml.presentation";
    "application/vnd.ms-powerpoint";
    "application/vnd.openxmlformats-officedocument.spreadsheetml.sheet";
    "application/vnd.ms-excel";
    "application/pdf";
    "image/jpeg";
    "image/png";
    "image/gif";
    "text/plain" ].

(** The rows [{ submissionId, deletedAt: null }] selects. *)
Definition live_files_of (sid : string) (w : World) : gmap string File :=
  filter (λ kv : string * File, submissionId kv.2 = sid ∧ deletedAt kv.2 = None) (files w).

(** [validateFileCount] *)
Definition validateFileCount (sid : string) : M unit :=
  let* count := gets (λ w, Z.of_nat (size (live_files_of sid w))) in
  if (MAX_FILES_PER_SUBMISSION <=? count)%Z then
    throw ("Maximum " +:+ pretty MAX_FILES_PER_SUBMISSION +:+ " files allowed per submission")
  else ret tt.

Definition TOTAL_TOO_LARGE : string :=
  "Total file size exceeds maximum of "
  +:+ pretty (MAX_TOTAL_SIZE / (1024 * 1024))%Z +:+ "MB".

(** [validateTotalSize] *)
Definition validateTotalSize (sid : string) (newFileSize : Z) : M unit :=
  let* found := gets (live_files_of sid) in
  let totalSize := (map_fold (λ _ f sum, sum + fileSize f) 0 found + newFileSize)%Z in
  if (MAX_TOTAL_SIZE <? totalSize)%Z then throw TOTAL_TOO_LARGE else ret tt.

(** [validateFileSize] *)
Definition validateFileSize (size : Z) : M unit :=
  if (MAX_FILE_SIZE <? size)%Z then
    throw ("File size exceeds maximum of "
           +:+ pretty (MAX_FILE_SIZE / (1024 * 1024))%Z +:+ "MB")
  else ret tt.

(** [validateMimeType] *)
Definition validateMimeType (mime : string) : M unit :=
  if decide (mime ∈ ALLOWED_MIMETYPES) then ret tt
  else throw ("File type " +:+ mime +:+ " is not allowed").

(** [s.replace(/[/\\\\0]/g, '')]: the class of the pattern lists the slash,
    the backslash (twice) and the digit zero. *)
Definition in_stripped_class (c : ascii) : bool :=
  bool_decide (c = "/"%char) || bool_decide (c = "\"%char) || bool_decide (c = "0"%char).

Fixpoint strip_class (s : string) : string :=
  match s with
  | EmptyString => EmptyString
  | String c s' => if in_stripped_class c then strip_class s' else String c (strip_class s')
  end.

(** The dot of a pattern matches any character but a line terminator. *)
Definition line_terminator (c : ascii) : bool :=
  bool_decide (c = ascii_of_nat 10) || bool_decide (c = ascii_of_nat 13).

Fixpoint drop_any_run (s : string) : string :=
  match s with
  | EmptyString => EmptyString
  | String c s' => if line_terminator c then s else drop_any_run s'
  end.

(** [s.replace(/^\\.+/, '')]: the pattern is a backslash at the start
    followed by one or more characters matched by the dot. *)
Definition strip_leading (s : string) : string :=
  match s with
  | String c (String d rest) =>
      if bool_decide (c = "\"%char) && negb (line_terminator d) then drop_any_run rest
      else s
  | _ => s
  end.

Section with_path.
Context `{PathLib}.

(** [sanitizeFilename] *)
Definition sanitizeFilename (name : string) : string :=
  let sanitized := strip_class name in
  let sanitized := strip_leading sanitized in
  let maxLength := 255 in
  let sanitized :=
    if decide (maxLength < String.length sanitized) then
      let ext := extname sanitized in
      let name := basename sanitized ext in
      String.substring 0 (maxLength - String.length ext) name +:+ ext
    else sanitized in
  str_or sanitized "file".

Definition UNIQUE_ID : string := "Unique constraint failed on the fields: (`id`)".

(** [prisma.file.create]: the row gets the identifier the database
    generates for it, [newId]; a taken identifier is refused. *)
Definition file_create (newId : string) (f : File) : M File :=
  λ w, match files w !! newId with
       | Some _ => (Throw UNIQUE_ID, w)
       | None => (Ok f, set_files (<[newId := f]>) w)
       end.

(** [uploadFile]; [uuid] is the value of [uuidv4()] and [wo] the way the
    write to disk ends.  The two calls that are not awaited leave their
    continuations in [tasks]. *)
Definition uploadFile (dto : UploadFileDto) (uuid newId : string) (wo : WriteOutcome)
    : M File :=
  try_catch
    (validateFileCount (dto_submissionId dto) ;;;
     validateFileSize (Z.of_nat (length (dto_buffer dto))) ;;;
     validateMimeType (dto_mimeType dto) ;;;
     let sanitizedFilename := sanitizeFilename (dto_originalFilename dto) in
     let fileExtension := extname sanitizedFilename in
     let uniqueFilename := uuid +:+ fileExtension in
     let* dir := gets (λ w, uploadDir (config w)) in
     let path := join dir uniqueFilename in
     fs_writeFile path (dto_buffer dto) wo ;;;
     let* file := file_create newId
       {| file_id := newId;
          submissionId := dto_submissionId dto;
          filename := uniqueFilename;
          originalFilename := sanitizedFilename;
          filePath := path;
          fileSize := Z.of_nat (length (dto_buffer dto));
          mimeType := dto_mimeType dto;
          virusScanStatus := pending;
          virusScanResult := None;
          virusScanAt := None;
          driveSyncStatus := PENDING;
          driveSyncAttempts := 0;
          googleDriveId := None;
          googleDriveUrl := None;
          lastDriveSyncAt := None;
          driveSyncError := None;
          deletedAt := None |} in
     modify (set_tasks (<[file_id file :=
               {| task_filePath := path; scan_pc := ScanQueued; sync_pc := SyncQueued |}]>)) ;;;
     ret file)
    (λ error, throw error).

End with_path.

(** *** The scanner *)

(** How a child process started with [exec] ended. *)
Inductive ExecOutcome :=
  | ExecOk (stdout : string)
  | ExecFails (code : option Z) (message : string).

Record ScanResult := {
  scan_infected : bool;
  scan_virus : option string;
}.

Fixpoint is_prefix (p s : string) : bool :=
  match p, s with
  | EmptyString, _ => true
  | String a p', String b s' => bool_decide (a = b) && is_prefix p' s'
  | String _ _, EmptyString => false
  end.

(** [s.includes(needle)] *)
Fixpoint includes (needle s : string) : bool :=
  is_prefix needle s ||
  match s with
  | EmptyString => false
  | String _ s' => includes needle s'
  end.

(** The [catch] block of [scanWithClamAV]. *)
Definition on_exec_failure (dev : bool) (code : option Z) (message : string)
    : Res ScanResult :=
  if decide (code = Some 1%Z) then Ok (Build_ScanResult true (Some "Malware detected"))
  else if dev then Ok (Build_ScanResult false None)
  else Throw message.

(** The longest non-empty prefix of [t] that is followed by [" FOUND"]. *)
Fixpoint before_found (t : string) : option string :=
  match t with
  | EmptyString => None
  | String c t' =>
      match before_found t' with
      | Some capture => Some (String c capture)
      | None => if is_prefix " FOUND" t' then Some (String c EmptyString) else None
      end
  end.

(** The longest prefix without a line terminator: what a greedy [.+] can
    consume. *)
Fixpoint dot_run (s : string) : string :=
  match s with
  | EmptyString => EmptyString
  | String c s' => if line_terminator c then EmptyString else String c (dot_run s')
  end.

(** [s.match(/: (.+) FOUND/)]: the capture of the leftmost match, the group
    being as long as it can. *)
Fixpoint virus_of (s : string) : option string :=
  match s with
  | EmptyString => None
  | String c s' =>
      match (if bool_decide (c = ":"%char) then
               match s' with
               | String d s'' =>
                   if bool_decide (d = " "%char) then before_found (dot_run s'') else None
               | EmptyString => None
               end
             else None) with
      | Some capture => Some capture
      | None => virus_of s'
      end
  end.

(** [scanWithClamAV]; [version] and [scan] are the outcomes of the two
    [clamscan] processes and [dev] is [NODE_ENV === 'development']. *)
Definition scanWithClamAV (dev : bool) (version scan : ExecOutcome) : Res ScanResult :=
  match version with
  | ExecFails code message => on_exec_failure dev code message
  | ExecOk stdout =>
      if decide (stdout = "") then Ok (Build_ScanResult false None)
      else
        match scan with
        | ExecFails code message => on_exec_failure dev code message
        | ExecOk scanResult =>
            if includes "FOUND" scanResult then
              Ok (Build_ScanResult true
                    (Some (match virus_of scanResult with
                           | Some v => v
                           | None => "Unknown"
                           end)))
            else Ok (Build_ScanResult false None)
        end
  end.

(** *** The two background continuations *)

(** [data] of the updates [scanFileAsync] makes. *)
Definition mark_scan (st : VirusScanStatus) (result : option string) (at_ : option Z)
    (f : File) : File :=
  {| file_id := file_id f; submissionId := submissionId f; filename := filename f;
     originalFilename := originalFilename f; filePath := filePath f;
     fileSize := fileSize f; mimeType := mimeType f;
     virusScanStatus := st;
     virusScanResult := result;
     virusScanAt := at_;
     driveSyncStatus := driveSyncStatus f;
     driveSyncAttempts := driveSyncAttempts f;
     googleDriveId := googleDriveId f; googleDriveUrl := googleDriveUrl f;
     lastDriveSyncAt := lastDriveSyncAt f; driveSyncError := driveSyncError f;
     deletedAt := deletedAt f |}.

Definition mark_scanning (f : File) : File :=
  mark_scan scanning (virusScanResult f) (virusScanAt f) f.

(** The [catch] block of [scanFileAsync].  When its own update throws, the
    rejection has no handler and the continuation is over. *)
Definition scan_failed (fileId : string) (message : string) : M ScanPc :=
  try_catch
    (let* now := new_Date in
     file_update fileId (mark_scan scan_error (Some message) (Some now)) ;;;
     ret ScanDone)
    (λ _, ret ScanDone).

(** [scanFileAsync(fileId, filePath)], from one awaited effect to the next:
    the continuation at [pc] runs its next effect and the code up to the
    following [await], and answers the new program counter.  [verdict] is
    what [scanWithClamAV] answered; it is read at [ScanRunning] only. *)
Definition scanFileAsync (fileId path : string) (verdict : Res ScanResult) (pc : ScanPc)
    : M ScanPc :=
  match pc with
  | ScanQueued =>
      try_catch
        (file_update fileId mark_scanning ;;; ret ScanRunning)
        (scan_failed fileId)
  | ScanRunning =>
      try_catch
        (let* result := (λ w, (verdict, w)) in
         let* now := new_Date in
         if scan_infected result then
           file_update fileId
             (mark_scan infected
                (Some (match scan_virus result with
                       | Some v => str_or v "Malware detected"
                       | None => "Malware detected"
                       end))
                (Some now)) ;;;
           ret ScanPurging
         else
           file_update fileId (mark_scan clean (Some "No threats detected") (Some now)) ;;;
           ret ScanDone)
        (scan_failed fileId)
  | ScanPurging =>
      try_catch
        (fs_unlink path ;;; ret ScanDone)
        (scan_failed fileId)
  | ScanDone => ret ScanDone
  end.

Definition POLL_LIMIT : Z := 30.

Definition options_of (f : File) : DriveService.DriveUploadOptions :=
  {| DriveService.opt_submissionId := submissionId f;
     DriveService.opt_fileId := file_id f;
     DriveService.opt_filePath := filePath f;
     DriveService.opt_filename := originalFilename f;
     DriveService.opt_mimeType := mimeType f |}.

(** [uploadToDriveAsync(fileId)], from one awaited effect to the next.  At
    [SyncPolling i] the timer of the loop has fired and the row is read
    again; at [SyncRefetch] the row is read a last time and, when it is
    clean, [driveService.uploadFile] runs.  Whatever is thrown is logged by
    the [catch] block and the continuation is over. *)
Definition uploadToDriveAsync (fileId : string) (pc : SyncPc) : M SyncPc :=
  try_catch
    (match pc with
     | SyncQueued =>
         let* file := gets (λ w, files w !! fileId) in
         match file with
         | None => throw DriveService.NOT_FOUND
         | Some f =>
             if decide (virusScanStatus f = pending ∨ virusScanStatus f = scanning) then
               if (0 <? POLL_LIMIT)%Z then ret (SyncPolling 0) else ret SyncRefetch
             else ret SyncRefetch
         end
     | SyncPolling i =>
         let* updatedFile := gets (λ w, files w !! fileId) in
         let status := virusScanStatus <$> updatedFile in
         if decide (status = Some clean ∨ status = Some scan_error) then ret SyncRefetch
         else if (i + 1 <? POLL_LIMIT)%Z then ret (SyncPolling (i + 1)) else ret SyncRefetch
     | SyncRefetch =>
         let* scannedFile := gets (λ w, files w !! fileId) in
         match scannedFile with
         | Some f =>
             if decide (virusScanStatus f ≠ clean) then ret SyncDone
             else DriveService.uploadFile (options_of f) ;;; ret SyncDone
         | None => ret SyncDone
         end
     | SyncDone => ret SyncDone
     end)
    (λ _, ret SyncDone).

Definition mark_deleted (now : Z) (f : File) : File :=
  {| file_id := file_id f; submissionId := submissionId f; filename := filename f;
     originalFilename := originalFilename f; filePath := filePath f;
     fileSize := fileSize f; mimeType := mimeType f;
     virusScanStatus := virusScanStatus f; virusScanResult := virusScanResult f;
     virusScanAt := virusScanAt f;
     driveSyncStatus := driveSyncStatus f;
     driveSyncAttempts := driveSyncAttempts f;
     googleDriveId := googleDriveId f; googleDriveUrl := googleDriveUrl f;
     lastDriveSyncAt := lastDriveSyncAt f; driveSyncError := driveSyncError f;
     deletedAt := Some now |}.

(** [FileService.deleteFile] *)
Definition deleteFile (id : string) : M unit :=
  let* file := gets (λ w, files w !! id) in
  match file with
  | None => throw DriveService.NOT_FOUND
  | Some f =>
      let* now := new_Date in
      file_update id (mark_deleted now) ;;;
      try_catch
        (let* present := gets (λ w, disk w !! filePath f) in
         match present with
         | Some _ => fs_unlink (filePath f)
         | None => ret tt
         end)
        (λ _, ret tt)
  end.

(** [FileService.getFileStream]: the bytes the stream delivers. *)
Definition getFileStream (id : string) : M (list Byte.byte * File) :=
  let* file := gets (λ w, files w !! id) in
  match file with
  | None => throw DriveService.NOT_FOUND
  | Some f =>
      let* present := gets (λ w, disk w !! filePath f) in
      match present with
      | None => throw "File not found on disk"
      | Some bytes => ret (bytes, f)
      end
  end.

(** [FileService.retryDriveSync] *)
Definition retryDriveSync (id : string) : M unit :=
  let* file := gets (λ w, files w !! id) in
  match file with
  | None => throw DriveService.NOT_FOUND
  | Some f =>
      if decide (driveSyncStatus f ≠ FAILED) then throw DriveService.NOT_FAILED
      else DriveService.retryFailedSync id
  end.

End FileService.

(** * The running system

    One event is one entry into the services from outside, or one
    continuation picked by the scheduler and run to its next [await].
    The entries are the public methods of [FileService] that write, the
    public [DriveService.retryFailedSync], [createSubmissionFolder] and
    [archiveSubmission];
    [DriveService.uploadFile] is entered from [uploadToDriveAsync] and
    [retryFailedSync] only, its two callers.  A run of
    [DriveService.uploadFile] is one step: it alone writes the sync
    columns of its row, and the scan continuation of a clean row is over. *)

Module System.
Import FileService.

Inductive Event :=
  | EvUpload (dto : FileService.UploadFileDto) (uuid newId : string) (wo : WriteOutcome)
  | EvScan (fileId : string) (version scan : ExecOutcome)
  | EvSync (fileId : string)
  | EvRetry (fileId : string)
  | EvRetryFailedSync (fileId : string)
  | EvDelete (fileId : string)
  | EvCreateFolder (year month submissionId reference : string)
  | EvArchive (submissionId : string)
  | EvTick (dt : Z).

Section with_platform.
Context `{PathLib}.

(** The store after running [m]; what [m] answers goes to its caller. *)
Definition exec {A} (m : M A) (w : World) : World := (m w).2.

Definition run_scan (fileId : string) (version scan : ExecOutcome) (w : World) : World :=
  match tasks w !! fileId with
  | None => w
  | Some t =>
      let verdict := scanWithClamAV (development (config w)) version scan in
      match scanFileAsync fileId (task_filePath t) verdict (scan_pc t) w with
      | (Ok pc, w') =>
          set_tasks (<[fileId := {| task_filePath := task_filePath t;
                                    scan_pc := pc; sync_pc := sync_pc t |}]>) w'
      | (Throw _, w') => w'
      end
  end.

Definition run_sync (fileId : string) (w : World) : World :=
  match tasks w !! fileId with
  | None => w
  | Some t =>
      match uploadToDriveAsync fileId (sync_pc t) w with
      | (Ok pc, w') =>
          set_tasks (<[fileId := {| task_filePath := task_filePath t;
                                    scan_pc := scan_pc t; sync_pc := pc |}]>) w'
      | (Throw _, w') => w'
      end
  end.

Definition step (w : World) (ev : Event) : World :=
  match ev with
  | EvUpload dto uuid newId wo => exec (FileService.uploadFile dto uuid newId wo) w
  | EvScan fileId version scan => run_scan fileId version scan w
  | EvSync fileId => run_sync fileId w
  | EvRetry fileId => exec (retryDriveSync fileId) w
  | EvRetryFailedSync fileId => exec (DriveService.retryFailedSync fileId) w
  | EvDelete fileId => exec (deleteFile fileId) w
  | EvCreateFolder year month sid reference =>
      exec (DriveService.createSubmissionFolder year month sid reference) w
  | EvArchive sid => exec (DriveService.archiveSubmission sid) w
  | EvTick dt => set_clock (λ c, c + Z.max 0 dt)%Z w
  end.

Definition run (w : World) (evs : list Event) : World := fold_left step evs w.

(** Before the first upload there is no file row, no continuation and no
    ledger row; everything else is arbitrary. *)
Definition initial (w : World) : Prop :=
  files w = ∅ ∧ tasks w = ∅ ∧ driveSyncLog w = [].

Inductive reachable : World → Prop :=
  | reachable_initial w : initial w → reachable w
  | reachable_step w ev : reachable w → reachable (step w ev).

End with_platform.

End System.

(** * SubmissionService (the parts that drive the Drive) *)

Module SubmissionService.

(** [createDriveFolderAsync]; [year] and [month] are read from the clock by
    [createSubmissionFolder]. *)
Definition createDriveFolderAsync (year month submissionId reference : string) : M unit :=
  try_catch
    (DriveService.createSubmissionFolder year month submissionId reference ;;; ret tt)
    (λ _, ret tt).

(** [delete].  The record [Submission] leaves the column [archivedAt] out;
    the column is passed in, and answered as written. *)
Definition delete (id : string) (archivedAt : gmap string Z) : M (gmap string Z) :=
  let* submission := gets (λ w, submissions w !! id) in
  match submission with
  | None => throw "Submission not found"
  | Some _ =>
      let* now := new_Date in
      let archived := <[id := now]> archivedAt in
      try_catch (DriveService.archiveSubmission id) (λ _, ret tt) ;;;
      ret archived
  end.

End SubmissionService.

(** * Vocabulary of the properties *)

(** Every run of [m] relates the store before to the store after by [R]. *)
Definition preserves {A} (R : relation World) (m : M A) : Prop :=
  ∀ w, R w (m w).2.

(** The columns of a file row no Drive upload writes. *)
Definition keeps_scan (f f' : File) : Prop :=
  file_id f' = file_id f ∧ virusScanStatus f' = virusScanStatus f.

Definition is_upload_call (c : ApiCall) : Prop :=
  match c with
  | ApiCreateFile _ _ => True
  | _ => False
  end.

(** What a run of [DriveService.uploadFile] for the file [fid] may change:
    the sync columns of that one row, the ledger (rows of that file only),
    the Drive (by upload requests only) and the scripts it consumes. *)
Record sync_frame (fid : string) (w w' : World) : Prop := {
  sf_tasks : tasks w' = tasks w;
  sf_submissions : submissions w' = submissions w;
  sf_users : users w' = users w;
  sf_emailQueue : emailQueue w' = emailQueue w;
  sf_notifications : notifications w' = notifications w;
  sf_disk : disk w' = disk w;
  sf_config : config w' = config w;
  sf_files_other : ∀ id, id ≠ fid → files w' !! id = files w !! id;
  sf_files_same : option_Forall2 keeps_scan (files w !! fid) (files w' !! fid);
  sf_log : ∃ rows, driveSyncLog w' = driveSyncLog w ++ rows
                   ∧ Forall (λ r, log_fileId r = fid) rows;
  sf_api : ∃ calls, api_calls w' = api_calls w ++ calls ∧ Forall is_upload_call calls;
}.

(** The columns of a file row the scanner and [deleteFile] leave alone. *)
Definition keeps_sync (f f' : File) : Prop :=
  file_id f' = file_id f ∧ driveSyncStatus f' = driveSyncStatus f
  ∧ driveSyncAttempts f' = driveSyncAttempts f ∧ googleDriveId f' = googleDriveId f.

(** The file table, the continuations and the ledger are untouched. *)
Definition same_tables (w w' : World) : Prop :=
  files w' = files w ∧ tasks w' = tasks w ∧ driveSyncLog w' = driveSyncLog w.

(** The status a scan continuation at [pc] has left in the row. *)
Definition scan_pc_agrees (pc : ScanPc) (st : VirusScanStatus) : Prop :=
  match pc with
  | ScanQueued => st = pending
  | ScanRunning => st = scanning
  | ScanPurging => st = infected
  | ScanDone => True
  end.

(** A row never touched by the sync engine. *)
Definition never_synced (f : File) : Prop :=
  driveSyncStatus f = PENDING ∧ driveSyncAttempts f = 0%Z ∧ googleDriveId f = None.

(** The invariant of the scan gate. *)
Record gate_inv (w : World) : Prop := {
  inv_key : ∀ id f, files w !! id = Some f → file_id f = id;
  inv_pc : ∀ id f t, files w !! id = Some f → tasks w !! id = Some t →
           scan_pc_agrees (scan_pc t) (virusScanStatus f);
  inv_sync : ∀ id f, files w !! id = Some f → virusScanStatus f ≠ clean → never_synced f;
  inv_log : ∀ row, row ∈ driveSyncLog w →
            ∃ f, files w !! log_fileId row = Some f ∧ virusScanStatus f = clean;
}.

(** How many more times a sync continuation can be picked before it is
    over. *)
Definition sync_budget (pc : SyncPc) : Z :=
  match pc with
  | SyncQueued => FileService.POLL_LIMIT + 2
  | SyncPolling i => Z.max 1 (FileService.POLL_LIMIT - i) + 1
  | SyncRefetch => 1
  | SyncDone => 0
  end.

(** A ledger row of an upload. *)
Definition ledger_row (fid status : string) (attempt : Z) (msg : option string)
    : DriveSyncLog :=
  Build_DriveSyncLog fid UPLOAD status attempt msg.

(** The rows of the ledger about one file. *)
Definition ledger_of (fid : string) (w : World) : list DriveSyncLog :=
  filter (λ r, log_fileId r = fid) (driveSyncLog w).

(** The non-deleted rows of the file table. *)
Definition live_files (w : World) : gmap string File :=
  filter (λ kv : string * File, deletedAt kv.2 = None) (files w).

(** The folders the Drive holds with a given name under a given parent. *)
Definition folders_named (name parent : string) (w : World) : list DriveItem :=
  filter (λ it, is_folder_named name parent it = true) (drive w).

(** The next request to the Drive is not rejected. *)
Definition answers_next (w : World) : Prop :=
  match drive_faults w with
  | Some _ :: _ => False
  | _ => True
  end.

(** Two callers resolve the same segment and both search before either
    creates: the interleaving the awaits of [getOrCreateFolder] allow. *)
Definition racing_resolution (name parent : string) : M (string * string) :=
  let* response1 := drive_files_list name parent in
  let* response2 := drive_files_list name parent in
  let* id1 := DriveService.reuse_or_create name parent response1 in
  let* id2 := DriveService.reuse_or_create name parent response2 in
  ret (id1, id2).

(** The message of a failed write. *)
Definition write_failure (wo : WriteOutcome) : option string :=
  match wo with
  | WriteDone => None
  | WriteFailsAtOpen msg => Some msg
  | WriteFailsAfter _ msg => Some msg
  end.

(** What a write leaves at its path. *)
Definition left_on_disk (path : string) (buffer : list Byte.byte) (wo : WriteOutcome)
    (d : gmap string (list Byte.byte)) : gmap string (list Byte.byte) :=
  match wo with
  | WriteDone => <[path := buffer]> d
  | WriteFailsAtOpen _ => d
  | WriteFailsAfter n _ => <[path := take n buffer]> d
  end.

(** The path [uploadFile] publishes an upload under. *)
Definition published_path `{PathLib} (dto : FileService.UploadFileDto) (uuid : string)
    (w : World) : string :=
  join (uploadDir (config w))
       (uuid +:+ extname (FileService.sanitizeFilename (FileService.dto_originalFilename dto))).

(** The checks [uploadFile] makes before it stores anything. *)
Definition passes_checks (dto : FileService.UploadFileDto) (w : World) : Prop :=
  (Z.of_nat (size (FileService.live_files_of (FileService.dto_submissionId dto) w))
     < FileService.MAX_FILES_PER_SUBMISSION)%Z
  ∧ (Z.of_nat (length (FileService.dto_buffer dto)) ≤ FileService.MAX_FILE_SIZE)%Z
  ∧ FileService.dto_mimeType dto ∈ FileService.ALLOWED_MIMETYPES.

(** The [createFolder] requests issued for one path segment. *)
Definition creations_of (name parent : string) (w : World) : list ApiCall :=
  filter (λ c, c = ApiCreateFolder name parent) (api_calls w).

(** Only the Drive, the list of requests and the script of the Drive may
    differ, and the Drive has kept its items in place. *)
Record drive_only (w w' : World) : Prop := {
  do_files : files w' = files w;
  do_submissions : submissions w' = submissions w;
  do_users : users w' = users w;
  do_log : driveSyncLog w' = driveSyncLog w;
  do_emailQueue : emailQueue w' = emailQueue w;
  do_notifications : notifications w' = notifications w;
  do_disk : disk w' = disk w;
  do_tasks : tasks w' = tasks w;
  do_ledger_faults : ledger_faults w' = ledger_faults w;
  do_clock : clock w' = clock w;
  do_config : config w' = config w;
  do_drive : drive w `prefix_of` drive w';
}.

(** The Drive holds a folder [id] named [name] under [parent]. *)
Definition holds_folder (w : World) (name parent id : string) : Prop :=
  ∃ it, it ∈ drive w ∧ item_id it = id ∧ is_folder_named name parent it = true.

(** A character of a string. *)
Definition has_char (c : ascii) (s : string) : Prop := c ∈ list_ascii_of_string s.


(** What the sync columns of a row look like between two events. *)
Definition settled (f : File) : Prop :=
  (0 ≤ driveSyncAttempts f ≤ DriveService.maxRetries)%Z
  ∧ (driveSyncStatus f = PENDING → never_synced f)
  ∧ (driveSyncStatus f = SYNCED → is_Some (googleDriveId f))
  ∧ (driveSyncStatus f = FAILED → driveSyncAttempts f = DriveService.maxRetries).

(** The gate invariant, every row settled, and the sync continuation over
    for every row the sync engine has touched. *)
Record sync_inv (w : World) : Prop := {
  si_gate : gate_inv w;
  si_rows : ∀ id f, files w !! id = Some f → settled f;
  si_done : ∀ id f t, files w !! id = Some f → tasks w !! id = Some t →
            driveSyncStatus f ≠ PENDING → sync_pc t = SyncDone;
}.

(** No row and no ledger row of [w] is missing in [w']. *)
Definition nothing_lost (w w' : World) : Prop :=
  driveSyncLog w `prefix_of` driveSyncLog w'
  ∧ ∀ id f, files w !! id = Some f →
            ∃ f', files w' !! id = Some f' ∧ file_id f' = file_id f.

(** * Sample stores and schedules *)

Module Sample.
Import FileService System.

Definition cfg : Config :=
  {| rootFolderId := "root"; uploadDir := "/srv/uploads"; development := false;
     appUrl := "http://localhost:3000" |}.

(** An empty installation. *)
Definition blank : World := Build_World ∅ ∅ ∅ [] [] [] [] [] ∅ ∅ [] [] 0 cfg.

Definition row (id sid : string) (size : Z) (scan : VirusScanStatus)
    (sync : DriveSyncStatus) (deleted : option Z) : File :=
  {| file_id := id; submissionId := sid; filename := id +:+ ".pdf";
     originalFilename := "report.pdf"; filePath := "/srv/uploads/" +:+ id +:+ ".pdf";
     fileSize := size; mimeType := "application/pdf";
     virusScanStatus := scan; virusScanResult := None; virusScanAt := None;
     driveSyncStatus := sync; driveSyncAttempts := 0;
     googleDriveId := None; googleDriveUrl := None; lastDriveSyncAt := None;
     driveSyncError := None; deletedAt := deleted |}.

Definition alice : User :=
  {| user_name := "Alice"; user_email := "alice@example.org"; role := OTHER_ROLE;
     isActive := true |}.

Definition admin : User :=
  {| user_name := "Root"; user_email := "root@example.org"; role := ADMIN;
     isActive := true |}.

(** A submission whose Drive folder is not provisioned yet. *)
Definition fresh_submission : Submission :=
  {| referenceId := "REF-000001"; submitterId := "u1";
     googleDriveFolderId := None; googleDriveFolderUrl := None;
     sub_driveSyncStatus := PENDING; sub_lastDriveSyncAt := None;
     sub_driveSyncError := None; driveSyncRetries := 0 |}.

(** One submitter, one administrator, one submission without folder. *)
Definition office : World :=
  Build_World ∅ {[ "s1" := fresh_submission ]} {[ "u1" := alice; "u0" := admin ]}
    [] [] [] [] [] ∅ ∅ [] [] 0 cfg.

(** The submission "s1" already holds four files of 50MB each. *)
Definition full_quota : World :=
  set_files (λ _, {[ "a" := row "a" "s1" MAX_FILE_SIZE clean SYNCED None;
                     "b" := row "b" "s1" MAX_FILE_SIZE clean SYNCED None;
                     "c" := row "c" "s1" MAX_FILE_SIZE clean SYNCED None;
                     "d" := row "d" "s1" MAX_FILE_SIZE clean SYNCED None ]}) office.

(** A one-byte text file and a two-byte one. *)
Definition one_byte : UploadFileDto :=
  {| dto_submissionId := "s1"; dto_originalFilename := "note.txt";
     dto_mimeType := "text/plain"; dto_buffer := [Byte.x68] |}.

Definition two_bytes : UploadFileDto :=
  {| dto_submissionId := "s1"; dto_originalFilename := "note.txt";
     dto_mimeType := "text/plain"; dto_buffer := [Byte.x68; Byte.x69] |}.

(** The only file row is soft-deleted and was synced before. *)
Definition only_deleted : World :=
  set_files (λ _, {[ "a" := row "a" "s1" 10 clean SYNCED (Some 5%Z) ]}) office.

(** The folder of "s1" is provisioned. *)
Definition provision : Event := EvCreateFolder "2026" "November" "s1" "REF-000001".

(** Upload of [two_bytes], then a scan that finds nothing. *)
Definition upload : Event := EvUpload two_bytes "uuid-1" "f1" WriteDone.
Definition scan_clean : Event := EvScan "f1" (ExecOk "ClamAV 1.4.1") (ExecOk "note.txt: OK").
Definition scan_found : Event :=
  EvScan "f1" (ExecOk "ClamAV 1.4.1") (ExecOk "note.txt: Eicar-Signature FOUND").

Definition play (w : World) (evs : list Event) : World := @run posix_path w evs.

(** The scan starts, the sync continuation polls thirty times and gives
    up, and only then does the scanner answer. *)
Definition slow_scan : list Event :=
  [provision; upload; scan_clean; EvSync "f1"]
  ++ replicate 30 (EvSync "f1") ++ [EvSync "f1"; scan_clean].

(** The scanner answers at once; the Drive rejects the next [k] requests
    after the five that provision the folder. *)
Definition rejections (k : nat) : list (option string) :=
  replicate 5 None ++ replicate k (Some "Rate Limit Exceeded").

Definition scanned : list Event := [provision; upload; scan_clean; scan_clean].

Definition quick_scan : list Event := scanned ++ [EvSync "f1"; EvSync "f1"].

(** The upload of "f1" is rejected twice, then accepted. *)
Definition twice_rejected : World :=
  set_drive_faults (λ _, rejections 2 ++ [None]) office.

(** The upload of "f1" is rejected three times. *)
Definition thrice_rejected : World :=
  set_drive_faults (λ _, rejections 3) office.

(** The options [uploadToDriveAsync] would pass for a file of "s1". *)
Definition note_options : DriveService.DriveUploadOptions :=
  {| DriveService.opt_submissionId := "s1"; DriveService.opt_fileId := "f1";
     DriveService.opt_filePath := "/srv/uploads/uuid-1.txt";
     DriveService.opt_filename := "note.txt"; DriveService.opt_mimeType := "text/plain" |}.

(** An archive the service refuses. *)
Definition zip_file : UploadFileDto :=
  {| dto_submissionId := "s1"; dto_originalFilename := "bundle.zip";
     dto_mimeType := "application/zip"; dto_buffer := [Byte.x50; Byte.x4b] |}.

(** The file "f1" ended FAILED, and the Drive answers again. *)
Definition failed_once : World := play thrice_rejected quick_scan.


(** The file "f1" was scanned clean and its sync turn came before the
    folder of "s1" was provisioned. *)
Definition stranded : World :=
  play office [upload; scan_clean; scan_clean; EvSync "f1"; EvSync "f1"].

(** The folder is provisioned at last, and everything that could start a
    sync of "f1" is tried. *)
Definition late_rescue : list Event :=
  [provision; EvSync "f1"; EvRetry "f1"; EvRetryFailedSync "f1"].



Definition infected_scan : list Event :=
  [provision; upload; scan_clean; scan_found; scan_found; EvSync "f1"; EvSync "f1"].

End Sample.

(** * Properties *)

(** ** Running a computation *)

Section preserves_facts.
Context {R : relation World} `{!PreOrder R}.

Lemma preserves_ret {A} (a : A) : preserves R (ret a).
Proof. intros w. reflexivity. Qed.

Lemma preserves_throw {A} msg : preserves R (@throw A msg).
Proof. intros w. reflexivity. Qed.

Lemma preserves_gets {A} (f : World → A) : preserves R (gets f).
Proof. intros w. reflexivity. Qed.

Lemma preserves_modify g : (∀ w, R w (g w)) → preserves R (modify g).
Proof. intros Hg w. apply Hg. Qed.

Lemma preserves_bind {A B} (m : M A) (k : A → M B) :
  preserves R m → (∀ a, preserves R (k a)) → preserves R (bind m k).
Proof.
  intros Hm Hk w. unfold bind. specialize (Hm w).
  destruct (m w) as [[a|e] w1]; simpl in *; [|done].
  etrans; [exact Hm | apply Hk].
Qed.

Lemma preserves_try_catch {A} (m : M A) (h : string → M A) :
  preserves R m → (∀ e, preserves R (h e)) → preserves R (try_catch m h).
Proof.
  intros Hm Hh w. unfold try_catch. specialize (Hm w).
  destruct (m w) as [[a|e] w1]; simpl in *; [done|].
  etrans; [exact Hm | apply Hh].
Qed.

End preserves_facts.

Lemma bind_ok {A B} (m : M A) (k : A → M B) w a w1 :
  m w = (Ok a, w1) → bind m k w = k a w1.
Proof. intros Hm. unfold bind. by rewrite Hm. Qed.

(** ** The frame of a Drive upload *)

Lemma keeps_scan_refl f : keeps_scan f f.
Proof. by split. Qed.

Lemma keeps_scan_trans f g h : keeps_scan f g → keeps_scan g h → keeps_scan f h.
Proof. intros [? ?] [? ?]. split; congruence. Qed.

Global Instance sync_frame_preorder fid : PreOrder (sync_frame fid).
Proof.
  split.
  - intros w. split; try done.
    + destruct (files w !! fid); constructor. apply keeps_scan_refl.
    + exists []. by rewrite app_nil_r.
    + exists []. by rewrite app_nil_r.
  - intros w1 w2 w3 H12 H23. destruct H12, H23. split; try congruence.
    + intros id Hid. rewrite sf_files_other1, sf_files_other0; done.
    + destruct sf_files_same0 as [f g Hfg|]; inversion sf_files_same1 as [g' h Hgh|];
        simplify_eq; constructor. eauto using keeps_scan_trans.
    + destruct sf_log0 as (r1 & E1 & F1), sf_log1 as (r2 & E2 & F2).
      exists (r1 ++ r2). rewrite E2, E1, app_assoc. split; [done|]. by apply Forall_app.
    + destruct sf_api0 as (c1 & E1 & F1), sf_api1 as (c2 & E2 & F2).
      exists (c1 ++ c2). rewrite E2, E1, app_assoc. split; [done|]. by apply Forall_app.
Qed.

Lemma sync_frame_file_update fid data :
  (∀ f, keeps_scan f (data f)) → preserves (sync_frame fid) (file_update fid data).
Proof.
  intros Hdata w. unfold file_update.
  destruct (files w !! fid) as [f|] eqn:Hf; simpl; [|reflexivity].
  split; simpl; try done.
  - intros id Hid. by rewrite lookup_insert_ne.
  - rewrite Hf, lookup_insert_eq. constructor. apply Hdata.
  - exists []. by rewrite app_nil_r.
  - exists []. by rewrite app_nil_r.
Qed.

Lemma sync_frame_log fid action status attempt msg :
  preserves (sync_frame fid) (DriveService.logDriveSync fid action status attempt msg).
Proof.
  intros w. unfold DriveService.logDriveSync.
  assert (Hrefl : ∀ o, option_Forall2 keeps_scan o o).
  { intros [f|]; constructor. apply keeps_scan_refl. }
  destruct (ledger_faults w) as [|[e|] rest]; simpl; split; simpl; try done;
    try (by exists []; rewrite app_nil_r);
    by eexists [_]; split; [done|]; repeat constructor.
Qed.

Lemma sync_frame_upload fid path name mime parent :
  preserves (sync_frame fid) (DriveService.performUpload path name mime parent).
Proof.
  intros w. unfold DriveService.performUpload, drive_files_create_media.
  unfold bind at 1. unfold gets at 1.
  destruct (disk w !! path) as [bytes|]; [|reflexivity].
  assert (Hrefl : ∀ o, option_Forall2 keeps_scan o o).
  { intros [f|]; constructor. apply keeps_scan_refl. }
  unfold bind, drive_request, gets, modify, ret.
  destruct (drive_faults w) as [|[e|] rest]; simpl; split; simpl; try done;
    try (by exists []; rewrite app_nil_r);
    by eexists [_]; split; [done|]; repeat constructor.
Qed.

Lemma sync_frame_attempt o folderId attempt :
  preserves (sync_frame (DriveService.opt_fileId o))
    (DriveService.upload_attempt o folderId attempt).
Proof.
  unfold DriveService.upload_attempt.
  apply preserves_bind; [by apply sync_frame_file_update|]. intros _.
  apply preserves_bind; [apply sync_frame_log|]. intros _.
  apply preserves_bind; [apply sync_frame_upload|]. intros result.
  apply preserves_bind; [apply preserves_gets|]. intros now.
  apply preserves_bind; [by apply sync_frame_file_update|]. intros _.
  apply preserves_bind; [apply sync_frame_log|]. intros _.
  apply preserves_ret.
Qed.

Lemma sync_frame_loop fuel o folderId attempt lastError :
  preserves (sync_frame (DriveService.opt_fileId o))
    (DriveService.upload_loop fuel o folderId attempt lastError).
Proof.
  revert attempt lastError.
  induction fuel as [|fuel IH]; intros attempt lastError; simpl.
  { apply preserves_ret. }
  destruct (attempt <=? DriveService.maxRetries)%Z; [|apply preserves_ret].
  apply preserves_bind.
  - unfold DriveService.guarded_attempt. apply preserves_try_catch.
    + apply preserves_bind; [apply sync_frame_attempt|]. intros ?. apply preserves_ret.
    + intros e. apply preserves_bind; [apply sync_frame_log|]. intros ?. apply preserves_ret.
  - intros [res|e]; [apply preserves_ret | apply IH].
Qed.

(** [DriveService.uploadFile] stays within its frame: it writes the sync
    columns of its own file only, logs under its own file only, talks to
    the Drive through upload requests only, and never reaches the
    notification tables. *)
Lemma uploadFile_frame o :
  preserves (sync_frame (DriveService.opt_fileId o)) (DriveService.uploadFile o).
Proof.
  unfold DriveService.uploadFile.
  apply preserves_bind; [apply preserves_gets|]. intros s.
  destruct (DriveService.folder_of s) as [folderId|]; [|apply preserves_throw].
  apply preserves_bind; [apply sync_frame_loop|].
  intros [res|lastError]; [apply preserves_ret|].
  apply preserves_bind; [|intros ?; apply preserves_throw].
  by apply sync_frame_file_update.
Qed.

(** ** Validator *)

Section validator_facts.
Context `{PathLib}.
Import FileService.

Lemma strip_class_head s c r : strip_class s = String c r → in_stripped_class c = false.
Proof.
  induction s as [|a s IH]; simpl; [done|].
  destruct (in_stripped_class a) eqn:Ha; [done|]. intros [= <- _]. done.
Qed.

(** The second replacement of [sanitizeFilename] can only fire on a name
    that starts with a backslash, and the first one has removed them all:
    it never changes anything. *)
Lemma strip_leading_idle s : strip_leading (strip_class s) = strip_class s.
Proof.
  destruct (strip_class s) as [|c [|d rest]] eqn:Hs; [done..|].
  apply strip_class_head in Hs. unfold in_stripped_class in Hs.
  apply orb_false_iff in Hs as [Hs _]. apply orb_false_iff in Hs as [_ Hs].
  unfold strip_leading. by rewrite Hs.
Qed.

(** C9.  Evaluation of [sanitizeFilename] on the name ".env": the leading
    dot stays, although the comment in the code and the specification say
    that leading dots are stripped. *)
Theorem sanitizeFilename_keeps_leading_dot : sanitizeFilename ".env" = ".env".
Proof. reflexivity. Qed.

(** A NUL byte between two letters stays as well, and the digit zero goes. *)
Lemma sanitizeFilename_keeps_nul :
  sanitizeFilename (String "a" (String (ascii_of_nat 0) "b"))
  = String "a" (String (ascii_of_nat 0) "b").
Proof. reflexivity. Qed.

Lemma sanitizeFilename_drops_zero : sanitizeFilename "2024-10.txt" = "224-1.txt".
Proof. reflexivity. Qed.

Lemma validateFileCount_ok sid w :
  (Z.of_nat (size (live_files_of sid w)) < MAX_FILES_PER_SUBMISSION)%Z →
  validateFileCount sid w = (Ok tt, w).
Proof.
  intros Hlt. unfold validateFileCount, bind, gets.
  destruct (Z.leb_spec MAX_FILES_PER_SUBMISSION (Z.of_nat (size (live_files_of sid w))));
    [lia | done].
Qed.

Lemma validateFileSize_ok n : (n ≤ MAX_FILE_SIZE)%Z → validateFileSize n = ret tt.
Proof.
  intros Hle. unfold validateFileSize.
  destruct (Z.ltb_spec MAX_FILE_SIZE n); [lia | done].
Qed.

Lemma validateMimeType_ok mime : mime ∈ ALLOWED_MIMETYPES → validateMimeType mime = ret tt.
Proof. intros Hin. unfold validateMimeType. by rewrite decide_True. Qed.

(** An upload that passes the three checks is stored and recorded; the
    total size of the submission plays no part. *)
Lemma uploadFile_accepts dto uuid newId w :
  passes_checks dto w → files w !! newId = None →
  ∃ f w', uploadFile dto uuid newId WriteDone w = (Ok f, w')
          ∧ files w' = <[newId := f]> (files w)
          ∧ filePath f = published_path dto uuid w
          ∧ disk w' = <[published_path dto uuid w := dto_buffer dto]> (disk w)
          ∧ virusScanStatus f = pending ∧ driveSyncStatus f = PENDING.
Proof.
  intros (Hcount & Hsize & Hmime) Hfresh.
  unfold uploadFile, try_catch.
  rewrite (bind_ok _ _ _ _ _ (validateFileCount_ok _ _ Hcount)).
  rewrite (validateFileSize_ok _ Hsize), (validateMimeType_ok _ Hmime).
  unfold bind, ret, gets, fs_writeFile, modify, file_create. simpl.
  rewrite Hfresh. simpl. eexists _, _. split; [reflexivity|]. simpl. done.
Qed.

(** C3, amended.  [uploadFile] writes the bytes straight to the path it
    publishes; when the write fails, the failure reaches the caller, no row
    and no continuation is created, and what the write left at the
    published path stays there. *)
Theorem uploadFile_write_failure dto uuid newId wo msg w :
  passes_checks dto w →
  write_failure wo = Some msg →
  ∃ w', uploadFile dto uuid newId wo w = (Throw msg, w')
        ∧ files w' = files w ∧ tasks w' = tasks w
        ∧ disk w' = left_on_disk (published_path dto uuid w) (dto_buffer dto) wo (disk w).
Proof.
  intros (Hcount & Hsize & Hmime) Hwo.
  unfold uploadFile, try_catch.
  rewrite (bind_ok _ _ _ _ _ (validateFileCount_ok _ _ Hcount)).
  rewrite (validateFileSize_ok _ Hsize), (validateMimeType_ok _ Hmime).
  destruct wo as [|m|n m]; simplify_eq/=;
    unfold bind, ret, gets, throw, modify; simpl; eexists; split; done.
Qed.

End validator_facts.

(** C3, witness: a two-byte upload whose write fails after one byte. *)
Lemma uploadFile_write_failure_witness :
  ∃ w', @FileService.uploadFile posix_path Sample.two_bytes "uuid-1" "f1"
          (WriteFailsAfter 1 "ENOSPC: no space left on device") Sample.office
        = (Throw "ENOSPC: no space left on device", w')
        ∧ files w' = files Sample.office ∧ tasks w' = tasks Sample.office
        ∧ disk w' = left_on_disk
                      (@published_path posix_path Sample.two_bytes "uuid-1" Sample.office)
                      (FileService.dto_buffer Sample.two_bytes)
                      (WriteFailsAfter 1 "ENOSPC: no space left on device")
                      (disk Sample.office).
Proof.
  apply (@uploadFile_write_failure posix_path).
  - split; [|split].
    + vm_compute. reflexivity.
    + vm_compute. discriminate.
    + vm_compute. repeat constructor.
  - reflexivity.
Defined.

(** C3, counterexample.  The same failing write leaves the first byte of
    the upload at the published path, with no row for it: the bytes do not
    go through a temporary file. *)
Lemma uploadFile_leaves_partial_file :
  let r := @FileService.uploadFile posix_path Sample.two_bytes "uuid-1" "f1"
             (WriteFailsAfter 1 "ENOSPC: no space left on device") Sample.office in
  r.1 = Throw "ENOSPC: no space left on device"
  ∧ files r.2 = ∅
  ∧ @published_path posix_path Sample.two_bytes "uuid-1" Sample.office
    = "/srv/uploads/uuid-1.txt"
  ∧ disk r.2 !! "/srv/uploads/uuid-1.txt" = Some [Byte.x68]
  ∧ disk Sample.office !! "/srv/uploads/uuid-1.txt" = None.
Proof. vm_compute. done. Qed.

(** C8.  Evaluation of [uploadFile] for a submission that already holds
    200MB: one more byte is accepted, stored and recorded, although
    [validateTotalSize] rejects the same upload. *)
Theorem uploadFile_ignores_total_size :
  let r := @FileService.uploadFile posix_path Sample.one_byte "uuid-1" "f1" WriteDone
             Sample.full_quota in
  (FileService.validateTotalSize "s1" 1 Sample.full_quota).1
  = Throw "Total file size exceeds maximum of 200MB"
  ∧ (∃ f, r.1 = Ok f)
  ∧ is_Some (files r.2 !! "f1")
  ∧ disk r.2 !! "/srv/uploads/uuid-1.txt" = Some [Byte.x68].
Proof. vm_compute. repeat split; eauto. Qed.

(** ** Sync statistics *)

Section stats_facts.
Import DriveService DriveService.SyncStats.

Lemma size_filter_insert (P : string * File → Prop) `{!∀ kv, Decision (P kv)}
    (m : gmap string File) i x :
  m !! i = None →
  size (filter P (<[i := x]> m)) = (if decide (P (i, x)) then 1 else 0) + size (filter P m).
Proof.
  intros Hi. rewrite map_filter_insert. case_decide.
  - rewrite map_size_insert_None; [done|]. apply map_lookup_filter_None_2. by left.
  - by rewrite delete_id.
Qed.

(** Every row has exactly one of the four statuses. *)
Lemma status_partition (m : gmap string File) :
  size m
  = size (filter (λ kv : string * File, driveSyncStatus kv.2 = SYNCED) m)
    + size (filter (λ kv : string * File, driveSyncStatus kv.2 = FAILED) m)
    + size (filter (λ kv : string * File, driveSyncStatus kv.2 = PENDING) m)
    + size (filter (λ kv : string * File, driveSyncStatus kv.2 = SYNCING) m).
Proof.
  induction m as [|i x m Hi IH] using map_ind.
  { by rewrite !map_filter_empty, map_size_empty. }
  rewrite map_size_insert_None by done.
  rewrite !size_filter_insert by done. simpl.
  destruct (driveSyncStatus x); repeat case_decide; try done; lia.
Qed.

(** C7, amended.  [getSyncStats] never fails; it counts every row of the
    file table per status, soft-deleted rows included, and answers as
    success rate the percentage [synced / total * 100] printed with two
    decimals and parsed back, or 0 when there is no row. *)
Theorem getSyncStats_counts_every_row w :
  ∃ s, getSyncStats w = (Ok s, w)
       ∧ totalFiles s = Z.of_nat (size (files w))
       ∧ syncedFiles s = count_status SYNCED w
       ∧ failedFiles s = count_status FAILED w
       ∧ pendingFiles s = count_status PENDING w
       ∧ syncingFiles s = count_status SYNCING w
       ∧ syncSuccessRate s
         = (if decide (files w = ∅) then 0%float
            else parseFloat_hundredths
                   (toFixed2 (PrimFloat.mul
                                (PrimFloat.div (number_of_Z (syncedFiles s))
                                               (number_of_Z (totalFiles s)))
                                (number_of_Z 100)))).
Proof.
  eexists. split; [reflexivity|]. simpl. repeat split.
  - unfold count_all, count_status. rewrite (status_partition (files w)). lia.
  - unfold rate, count_all. case_decide as Hempty.
    + rewrite Hempty, map_size_empty. reflexivity.
    + destruct (Z.ltb_spec 0 (Z.of_nat (size (files w)))) as [|Hle]; [done|].
      exfalso. apply Hempty, map_size_empty_inv. lia.
Qed.

End stats_facts.

(** C7, counterexample.  With one row, soft-deleted and synced, there is
    no non-deleted file, yet the total is 1 and the rate is 100 (a
    percentage), not 0. *)
Lemma getSyncStats_counts_deleted_row :
  size (live_files Sample.only_deleted) = 0
  ∧ (DriveService.getSyncStats Sample.only_deleted).1
    = Ok {| DriveService.SyncStats.totalFiles := 1; DriveService.SyncStats.syncedFiles := 1;
            DriveService.SyncStats.failedFiles := 0;
            DriveService.SyncStats.pendingFiles := 0;
            DriveService.SyncStats.syncingFiles := 0;
            DriveService.SyncStats.syncSuccessRate := 100%float |}.
Proof. vm_compute. done. Qed.

(** One synced row out of three: the double nearest to 33.33 (written in
    hexadecimal below), not 1/3. *)
Lemma rate_one_of_three : DriveService.SyncStats.rate 1 3 = 0x1.0aa3d70a3d70ap+5%float.
Proof. vm_compute. reflexivity. Qed.

(** ** Folder provisioning *)

Section folder_facts.
Import DriveService.

Lemma drive_request_answered c w :
  answers_next w →
  ∃ w1, drive_request c w = (Ok tt, w1)
        ∧ drive w1 = drive w ∧ api_calls w1 = api_calls w ++ [c].
Proof.
  unfold answers_next, drive_request. intros Hnext.
  destruct (drive_faults w) as [|[e|] rest]; [|done|]; eexists; done.
Qed.

(** What a successful [getOrCreateFolder] leaves behind: the folder it
    answers is the first one a search for the segment finds. *)
Lemma getOrCreateFolder_result name parent w id w1 :
  getOrCreateFolder name parent w = (Ok id, w1) →
  ∃ first others, folders_named name parent w1 = first :: others ∧ item_id first = id.
Proof.
  unfold getOrCreateFolder, drive_files_list, folders_named.
  unfold bind at 1. unfold bind at 1.
  destruct (drive_request (ApiList name parent) w) as [[[]|e] w0] eqn:Hreq; [|done].
  assert (drive w0 = drive w) as Hdrive.
  { unfold drive_request in Hreq.
    destruct (drive_faults w) as [|[?|] ?]; by simplify_eq. }
  unfold gets. simpl.
  destruct (filter _ (drive w0)) as [|f fs] eqn:Hfound; simpl.
  - unfold createFolder, drive_files_create_folder, bind, gets, modify, ret.
    destruct (drive_request (ApiCreateFolder name parent) w0) as [[[]|e] w2] eqn:Hreq2;
      [|done].
    assert (drive w2 = drive w0) as Hdrive2.
    { unfold drive_request in Hreq2.
      destruct (drive_faults w0) as [|[?|] ?]; by simplify_eq. }
    intros [= <- <-]. simpl. rewrite filter_app, Hdrive2, Hfound. simpl.
    rewrite filter_cons_True.
    + eexists _, _. split; [reflexivity|done].
    + unfold is_folder_named. simpl.
      rewrite !bool_decide_eq_true_2; [done..| |done]. set_solver.
  - unfold ret. intros [= <- <-]. rewrite Hfound. eauto.
Qed.

(** C2, amended.  Resolved one after the other, with the Drive answering,
    the same (name, parent) segment gives the same folder id again and the
    second resolution issues a search and no [createFolder]. *)
Theorem getOrCreateFolder_sequential name parent w id w1 :
  getOrCreateFolder name parent w = (Ok id, w1) →
  answers_next w1 →
  ∃ w2, getOrCreateFolder name parent w1 = (Ok id, w2)
        ∧ drive w2 = drive w1
        ∧ api_calls w2 = api_calls w1 ++ [ApiList name parent]
        ∧ creations_of name parent w2 = creations_of name parent w1.
Proof.
  intros Hfirst Hnext.
  destruct (getOrCreateFolder_result _ _ _ _ _ Hfirst) as (f & fs & Hfound & Hid).
  destruct (drive_request_answered (ApiList name parent) w1 Hnext)
    as (w2 & Hreq & Hdrive & Hcalls).
  exists w2. unfold getOrCreateFolder, drive_files_list.
  unfold bind at 1. unfold bind at 1. rewrite Hreq. unfold gets. simpl.
  unfold folders_named in Hfound. rewrite Hdrive, Hfound. simpl. unfold ret.
  rewrite Hid. repeat split; try done.
  unfold creations_of. rewrite Hcalls, filter_app. simpl.
  rewrite filter_cons_False, filter_nil, app_nil_r; done.
Qed.

(** C10.  Without a provisioned folder [DriveService.uploadFile] throws
    'Submission Drive folder not found' and leaves the store as it was: no
    request to the Drive, no ledger row, no status change.  And on no input
    does it send the Drive anything but upload requests, or write a
    submission row: folders are never searched, created or recorded during
    a file sync. *)
Theorem uploadFile_without_folder o w :
  (folder_of (submissions w !! opt_submissionId o) = None →
   uploadFile o w = (Throw "Submission Drive folder not found", w))
  ∧ submissions (uploadFile o w).2 = submissions w
  ∧ ∃ calls, api_calls (uploadFile o w).2 = api_calls w ++ calls
             ∧ Forall is_upload_call calls.
Proof.
  split; [|split].
  - intros Hnone. unfold uploadFile, bind, gets. by rewrite Hnone.
  - apply (uploadFile_frame o w).
  - apply (uploadFile_frame o w).
Qed.

End folder_facts.

(** C2, witness: the year folder resolved twice in an empty Drive. *)
Lemma getOrCreateFolder_sequential_witness :
  ∃ w2, DriveService.getOrCreateFolder "2026" "root"
          (DriveService.getOrCreateFolder "2026" "root" Sample.office).2
        = (Ok "drive-0", w2)
        ∧ drive w2 = drive (DriveService.getOrCreateFolder "2026" "root" Sample.office).2
        ∧ api_calls w2
          = api_calls (DriveService.getOrCreateFolder "2026" "root" Sample.office).2
            ++ [ApiList "2026" "root"]
        ∧ creations_of "2026" "root" w2
          = creations_of "2026" "root"
              (DriveService.getOrCreateFolder "2026" "root" Sample.office).2.
Proof.
  apply (getOrCreateFolder_sequential "2026" "root" Sample.office).
  - vm_compute. reflexivity.
  - vm_compute. exact I.
Defined.

(** C2, counterexample.  [createSubmissionFolder] run twice in a row for
    the same submission resolves the leaf segment ("REF-000001" under the
    month folder) to two different folder ids with two [createFolder]
    requests. *)
Lemma leaf_folder_created_twice :
  let r1 := DriveService.createSubmissionFolder "2026" "November" "s1" "REF-000001"
              Sample.office in
  let r2 := DriveService.createSubmissionFolder "2026" "November" "s1" "REF-000001" r1.2 in
  fst <$> (match r1.1 with Ok a => Some a | Throw _ => None end) = Some "drive-2"
  ∧ fst <$> (match r2.1 with Ok a => Some a | Throw _ => None end) = Some "drive-3"
  ∧ item_id <$> folders_named "REF-000001" "drive-1" r2.2 = ["drive-2"; "drive-3"]
  ∧ creations_of "REF-000001" "drive-1" r2.2
    = [ApiCreateFolder "REF-000001" "drive-1"; ApiCreateFolder "REF-000001" "drive-1"].
Proof. vm_compute. done. Qed.

(** Without a lock, two resolutions of one segment that both search before
    either creates end with two folders as well. *)
Lemma getOrCreateFolder_race :
  let r := racing_resolution "2026" "root" Sample.office in
  r.1 = Ok ("drive-0", "drive-1")
  ∧ item_id <$> folders_named "2026" "root" r.2 = ["drive-0"; "drive-1"]
  ∧ length (creations_of "2026" "root" r.2) = 2.
Proof. vm_compute. done. Qed.

(** C10, witness: the submission "s1" before its folder is provisioned. *)
Lemma uploadFile_without_folder_witness :
  DriveService.uploadFile Sample.note_options Sample.office
  = (Throw "Submission Drive folder not found", Sample.office).
Proof.
  apply (proj1 (uploadFile_without_folder Sample.note_options Sample.office)).
  vm_compute. reflexivity.
Defined.

(** ** Retries and the ledger *)

Section retry_facts.
Import DriveService.

(** An attempt the Drive rejects: the row is SYNCING with the attempt
    number, and the ledger has a 'started' and a 'failed' row more. *)
Lemma attempt_rejected o folderId attempt w f bytes e rest :
  files w !! opt_fileId o = Some f →
  disk w !! opt_filePath o = Some bytes →
  drive_faults w = Some e :: rest →
  ledger_faults w = [] →
  ∃ w1, guarded_attempt o folderId attempt w = (Ok (inr e), w1)
        ∧ files w1 = <[opt_fileId o := mark_syncing attempt f]> (files w)
        ∧ disk w1 = disk w ∧ submissions w1 = submissions w
        ∧ drive_faults w1 = rest ∧ ledger_faults w1 = []
        ∧ driveSyncLog w1
          = driveSyncLog w ++ [ledger_row (opt_fileId o) "started" attempt None;
                               ledger_row (opt_fileId o) "failed" attempt (Some e)].
Proof.
  intros Hf Hdisk Hfaults Hledger.
  unfold guarded_attempt, upload_attempt, performUpload, drive_files_create_media,
    new_Date, file_update, logDriveSync, drive_request, try_catch, bind, gets, modify,
    ret, throw.
  cbn. rewrite Hf. cbn. rewrite Hledger. cbn. rewrite Hdisk. cbn.
  rewrite Hfaults. cbn. rewrite Hledger. cbn.
  eexists. split; [reflexivity|]. cbn. by rewrite <- app_assoc.
Qed.

(** An attempt the Drive accepts: the row is SYNCED, and the ledger has a
    'started' and a 'success' row more. *)
Lemma attempt_accepted o folderId attempt w f bytes rest :
  files w !! opt_fileId o = Some f →
  disk w !! opt_filePath o = Some bytes →
  drive_faults w = None :: rest →
  ledger_faults w = [] →
  ∃ res w1, guarded_attempt o folderId attempt w = (Ok (inl res), w1)
        ∧ files w1 !! opt_fileId o
          = Some (mark_synced (res_fileId res) (res_webViewLink res) (clock w)
                    (mark_syncing attempt f))
        ∧ driveSyncLog w1
          = driveSyncLog w ++ [ledger_row (opt_fileId o) "started" attempt None;
                               ledger_row (opt_fileId o) "success" attempt None].
Proof.
  intros Hf Hdisk Hfaults Hledger.
  unfold guarded_attempt, upload_attempt, performUpload, drive_files_create_media,
    new_Date, file_update, logDriveSync, drive_request, try_catch, bind, gets, modify,
    ret, throw.
  cbn. rewrite Hf. cbn. rewrite Hledger. cbn. rewrite Hdisk. cbn.
  rewrite Hfaults. cbn. rewrite lookup_insert_eq. cbn. rewrite Hledger. cbn.
  eexists _, _. split; [reflexivity|]. cbn.
  rewrite lookup_insert_eq. split; [done|]. by rewrite <- app_assoc.
Qed.

(** C5, amended.  A file whose upload the Drive rejects twice and then
    accepts ends SYNCED, and the run appends six rows to the ledger of the
    file: for each of the attempts 1, 2, 3 a row 'started' followed by the
    row of its outcome, 'failed', 'failed' and 'success'. *)
Theorem uploadFile_third_attempt o w folderId f bytes e1 e2 rest :
  folder_of (submissions w !! opt_submissionId o) = Some folderId →
  files w !! opt_fileId o = Some f →
  disk w !! opt_filePath o = Some bytes →
  drive_faults w = Some e1 :: Some e2 :: None :: rest →
  ledger_faults w = [] →
  ledger_of (opt_fileId o) w = [] →
  ∃ res w', uploadFile o w = (Ok res, w')
    ∧ driveSyncStatus <$> files w' !! opt_fileId o = Some SYNCED
    ∧ ledger_of (opt_fileId o) w'
      = [ledger_row (opt_fileId o) "started" 1 None;
         ledger_row (opt_fileId o) "failed" 1 (Some e1);
         ledger_row (opt_fileId o) "started" 2 None;
         ledger_row (opt_fileId o) "failed" 2 (Some e2);
         ledger_row (opt_fileId o) "started" 3 None;
         ledger_row (opt_fileId o) "success" 3 None].
Proof.
  intros Hfolder Hf Hdisk Hfaults Hledger Hnone.
  destruct (attempt_rejected o folderId 1 w f bytes e1 _ Hf Hdisk Hfaults Hledger)
    as (w1 & Hrun1 & Hf1 & Hdisk1 & Hsub1 & Hfaults1 & Hledger1 & Hlog1).
  assert (files w1 !! opt_fileId o = Some (mark_syncing 1 f)) as Hf1'.
  { by rewrite Hf1, lookup_insert_eq. }
  rewrite <- Hdisk1 in Hdisk.
  destruct (attempt_rejected o folderId 2 w1 _ bytes e2 _ Hf1' Hdisk Hfaults1 Hledger1)
    as (w2 & Hrun2 & Hf2 & Hdisk2 & Hsub2 & Hfaults2 & Hledger2 & Hlog2).
  assert (files w2 !! opt_fileId o = Some (mark_syncing 2 (mark_syncing 1 f))) as Hf2'.
  { by rewrite Hf2, lookup_insert_eq. }
  rewrite <- Hdisk2 in Hdisk.
  destruct (attempt_accepted o folderId 3 w2 _ bytes _ Hf2' Hdisk Hfaults2 Hledger2)
    as (res & w3 & Hrun3 & Hf3 & Hlog3).
  exists res, w3. split; [|split].
  - unfold uploadFile, bind at 1, gets at 1. rewrite Hfolder.
    unfold bind at 1. simpl.
    rewrite (bind_ok _ _ _ _ _ Hrun1). simpl.
    rewrite (bind_ok _ _ _ _ _ Hrun2). simpl.
    rewrite (bind_ok _ _ _ _ _ Hrun3). reflexivity.
  - rewrite Hf3. reflexivity.
  - unfold ledger_of in *. rewrite Hlog3, Hlog2, Hlog1, !filter_app, Hnone. simpl.
    rewrite !filter_cons_True by done. rewrite !filter_nil. reflexivity.
Qed.

End retry_facts.

(** C5, witness: the file "f1", scanned clean, with a Drive that rejects
    its first two uploads. *)
Lemma uploadFile_third_attempt_witness :
  ∃ res w', DriveService.uploadFile Sample.note_options
              (Sample.play Sample.twice_rejected Sample.scanned) = (Ok res, w')
    ∧ driveSyncStatus <$> files w' !! "f1" = Some SYNCED
    ∧ ledger_of "f1" w'
      = [ledger_row "f1" "started" 1 None;
         ledger_row "f1" "failed" 1 (Some "Rate Limit Exceeded");
         ledger_row "f1" "started" 2 None;
         ledger_row "f1" "failed" 2 (Some "Rate Limit Exceeded");
         ledger_row "f1" "started" 3 None;
         ledger_row "f1" "success" 3 None].
Proof.
  eapply (uploadFile_third_attempt Sample.note_options
            (Sample.play Sample.twice_rejected Sample.scanned)).
  - vm_compute. reflexivity.
  - vm_compute. reflexivity.
  - vm_compute. reflexivity.
  - vm_compute. reflexivity.
  - vm_compute. reflexivity.
  - vm_compute. reflexivity.
Defined.

(** C5, counterexample.  The whole pipeline run on that file: it ends
    SYNCED with six rows in its ledger, not three. *)
Lemma ledger_has_six_rows :
  let w := Sample.play Sample.twice_rejected Sample.quick_scan in
  virusScanStatus <$> files w !! "f1" = Some clean
  ∧ driveSyncStatus <$> files w !! "f1" = Some SYNCED
  ∧ length (ledger_of "f1" w) = 6
  ∧ (λ r, (attemptNumber r, log_status r)) <$> ledger_of "f1" w
    = [(1%Z, "started"); (1%Z, "failed"); (2%Z, "started"); (2%Z, "failed");
       (3%Z, "started"); (3%Z, "success")].
Proof. vm_compute. done. Qed.

(** ** Exhausted retries *)

(** No run of [DriveService.uploadFile], and so no sync of a file, queues a
    mail or creates a notification. *)
Lemma uploadFile_never_alerts o w :
  emailQueue (DriveService.uploadFile o w).2 = emailQueue w
  ∧ notifications (DriveService.uploadFile o w).2 = notifications w.
Proof. destruct (uploadFile_frame o w). done. Qed.

(** C4.  Evaluation of the pipeline on a clean file whose three uploads
    the Drive rejects: the row ends FAILED with the last error stored, but
    no mail is queued and no notification created, although
    [sendDriveSyncFailureAlert], run on that store, alerts the
    administrator. *)
Theorem exhausted_retries_alert_nobody :
  let w := Sample.play Sample.thrice_rejected Sample.quick_scan in
  let alerted := (NotificationService.sendDriveSyncFailureAlert "s1"
                    "Rate Limit Exceeded" w).2 in
  driveSyncStatus <$> files w !! "f1" = Some FAILED
  ∧ driveSyncAttempts <$> files w !! "f1" = Some 3%Z
  ∧ driveSyncError <$> files w !! "f1" = Some (Some "Rate Limit Exceeded")
  ∧ emailQueue w = [] ∧ notifications w = []
  ∧ email_to <$> emailQueue alerted = ["root@example.org"]
  ∧ notif_userId <$> notifications alerted = ["u0"].
Proof. vm_compute. done. Qed.

(** ** What each entry point and each continuation changes *)

Global Instance same_tables_preorder : PreOrder same_tables.
Proof.
  split.
  - intros w. by repeat split.
  - intros w1 w2 w3 (? & ? & ?) (? & ? & ?). repeat split; congruence.
Qed.

Lemma same_tables_drive_request c : preserves same_tables (drive_request c).
Proof.
  intros w. unfold drive_request. destruct (drive_faults w) as [|[?|] ?]; by repeat split.
Qed.

Lemma same_tables_submission_update id data :
  preserves same_tables (submission_update id data).
Proof.
  intros w. unfold submission_update. destruct (submissions w !! id); by repeat split.
Qed.

Lemma same_tables_createFolder name parent :
  preserves same_tables (DriveService.createFolder name parent).
Proof.
  unfold DriveService.createFolder, drive_files_create_folder.
  apply preserves_bind; [apply same_tables_drive_request|]. intros _.
  apply preserves_bind; [apply preserves_gets|]. intros id.
  apply preserves_bind; [|intros _; apply preserves_ret].
  apply preserves_modify. intros w. by repeat split.
Qed.

Lemma same_tables_getOrCreateFolder name parent :
  preserves same_tables (DriveService.getOrCreateFolder name parent).
Proof.
  unfold DriveService.getOrCreateFolder, drive_files_list.
  apply preserves_bind.
  - apply preserves_bind; [apply same_tables_drive_request|]. intros _.
    apply preserves_gets.
  - intros [|f fs]; simpl; [apply same_tables_createFolder | apply preserves_ret].
Qed.

(** Provisioning a folder touches neither the file table, nor the
    continuations, nor the ledger. *)
Lemma same_tables_createSubmissionFolder year month sid reference :
  preserves same_tables (DriveService.createSubmissionFolder year month sid reference).
Proof.
  unfold DriveService.createSubmissionFolder.
  apply preserves_try_catch.
  - apply preserves_bind; [apply preserves_gets|]. intros root.
    apply preserves_bind; [apply same_tables_getOrCreateFolder|]. intros y.
    apply preserves_bind; [apply same_tables_getOrCreateFolder|]. intros m.
    apply preserves_bind; [apply same_tables_createFolder|]. intros leaf.
    apply preserves_bind; [apply preserves_gets|]. intros now.
    apply preserves_bind; [apply same_tables_submission_update|]. intros _.
    apply preserves_ret.
  - intros e. apply preserves_bind; [apply same_tables_submission_update|]. intros _.
    apply preserves_throw.
Qed.

Lemma same_tables_archiveSubmission sid :
  preserves same_tables (DriveService.archiveSubmission sid).
Proof.
  unfold DriveService.archiveSubmission.
  apply preserves_try_catch; [|intros e; apply preserves_throw].
  apply preserves_bind; [apply preserves_gets|]. intros s.
  destruct (DriveService.folder_of s) as [folderId|]; [|apply preserves_ret].
  apply preserves_bind; [apply preserves_gets|]. intros root.
  apply preserves_bind; [apply same_tables_getOrCreateFolder|]. intros archive.
  unfold drive_files_update.
  apply preserves_bind; [apply same_tables_drive_request|]. intros _.
  apply preserves_bind; [apply preserves_gets|]. intros [|]; [|apply preserves_throw].
  apply preserves_modify. intros w. by repeat split.
Qed.

Section effects.
Context `{PathLib}.
Import FileService.
#[local] Arguments DriveService.uploadFile : simpl never.

(** [FileService.uploadFile] either leaves the three tables alone, or adds
    one row under a new identifier, pending on both sides, together with
    its two continuations. *)
Lemma uploadFile_effect dto uuid newId wo w :
  let w' := (FileService.uploadFile dto uuid newId wo w).2 in
  same_tables w w'
  ∨ (files w !! newId = None
     ∧ ∃ f0 t0, files w' = <[newId := f0]> (files w)
                ∧ tasks w' = <[newId := t0]> (tasks w)
                ∧ driveSyncLog w' = driveSyncLog w
                ∧ file_id f0 = newId ∧ virusScanStatus f0 = pending
                ∧ never_synced f0
                ∧ scan_pc t0 = ScanQueued ∧ sync_pc t0 = SyncQueued).
Proof.
  unfold FileService.uploadFile, FileService.validateFileCount,
    FileService.validateFileSize, FileService.validateMimeType, fs_writeFile,
    FileService.file_create, try_catch, bind, gets, modify, ret, throw.
  cbn.
  destruct (_ <=? _)%Z; cbn; [by left|].
  destruct (_ <? _)%Z; cbn; [by left|].
  destruct (decide _); cbn; [|by left].
  destruct wo as [|msg|n msg]; cbn; [|by left|by left].
  destruct (files w !! newId) eqn:Hfresh; cbn; [by left|].
  right. split; [done|]. eexists _, _. repeat split; reflexivity.
Qed.

(** One turn of the scan continuation never throws; it writes the scan
    columns of its own row only, and leaves the row agreeing with the new
    program counter. *)
Lemma scanFileAsync_effect id path verdict pc w :
  ∃ pc' w', scanFileAsync id path verdict pc w = (Ok pc', w')
    ∧ tasks w' = tasks w ∧ driveSyncLog w' = driveSyncLog w
    ∧ (∀ id', id' ≠ id → files w' !! id' = files w !! id')
    ∧ match files w !! id with
      | None => files w' !! id = None
      | Some f => ∃ f', files w' !! id = Some f' ∧ keeps_sync f f'
                        ∧ scan_pc_agrees pc' (virusScanStatus f')
                        ∧ (pc = ScanDone → f' = f)
      end.
Proof.
  assert (Hins : ∀ (m : gmap string File) g id', id' ≠ id → <[id := g]> m !! id' = m !! id').
  { intros. by rewrite lookup_insert_ne. }
  destruct pc; unfold scanFileAsync, scan_failed, file_update, fs_unlink, new_Date,
    try_catch, bind, gets, modify, ret, throw; cbn.
  - (* ScanQueued *)
    destruct (files w !! id) as [f|] eqn:Hf; cbn; rewrite ?Hf; cbn.
    + eexists _, _. split; [reflexivity|]. cbn. repeat split; [by auto|].
      rewrite lookup_insert_eq. eexists. repeat split; done.
    + eexists _, _. split; [reflexivity|]. by rewrite Hf.
  - (* ScanRunning *)
    destruct verdict as [[inf virus]|msg]; cbn.
    + destruct inf; cbn; destruct (files w !! id) as [f|] eqn:Hf; cbn; rewrite ?Hf; cbn;
        eexists _, _; (split; [reflexivity|]); cbn; rewrite ?Hf;
        repeat split; auto; rewrite lookup_insert_eq; eexists; repeat split; done.
    + destruct (files w !! id) as [f|] eqn:Hf; cbn;
        eexists _, _; (split; [reflexivity|]); cbn; rewrite ?Hf;
        repeat split; auto; rewrite lookup_insert_eq; eexists; repeat split; done.
  - (* ScanPurging *)
    destruct (disk w !! path) as [bytes|] eqn:Hdisk; cbn.
    + eexists _, _. split; [reflexivity|]. cbn. repeat split.
      destruct (files w !! id) as [f|]; [|done]. eexists. repeat split; done.
    + destruct (files w !! id) as [f|] eqn:Hf; cbn;
        eexists _, _; (split; [reflexivity|]); cbn; rewrite ?Hf;
        repeat split; auto; rewrite lookup_insert_eq; eexists; repeat split; done.
  - (* ScanDone *)
    eexists _, _. split; [reflexivity|]. repeat split.
    destruct (files w !! id) as [f|]; [|done]. eexists. repeat split; done.
Qed.

(** One turn of the sync continuation never throws, and changes the store
    only at [SyncRefetch], only when the row it reads is clean, and then by
    a run of [DriveService.uploadFile] for that row. *)
Lemma uploadToDriveAsync_effect id pc w :
  ∃ pc' w', uploadToDriveAsync id pc w = (Ok pc', w')
    ∧ (w' = w
       ∨ (pc = SyncRefetch
          ∧ ∃ f, files w !! id = Some f ∧ virusScanStatus f = clean
                 ∧ w' = (DriveService.uploadFile (options_of f) w).2)).
Proof.
  destruct pc as [|i| |]; unfold uploadToDriveAsync, try_catch, bind, gets, ret, throw; cbn.
  - destruct (files w !! id) as [f|]; cbn; [|by eexists _, _; split; [|left]].
    destruct (decide _); cbn; by eexists _, _; split; [|left].
  - destruct (decide _); cbn; [by eexists _, _; split; [|left]|].
    destruct (_ <? _)%Z; by eexists _, _; split; [|left].
  - destruct (files w !! id) as [f|] eqn:Hf; cbn; [|by eexists _, _; split; [|left]].
    destruct (decide (virusScanStatus f ≠ clean)) as [|Hclean]; cbn;
      [by eexists _, _; split; [|left]|].
    apply dec_stable in Hclean.
    destruct (DriveService.uploadFile (options_of f) w) as [[res|e] w1] eqn:Hrun; cbn;
      eexists _, _; (split; [reflexivity|]); right; split; [done| |done|];
      exists f; rewrite Hrun; done.
  - by eexists _, _; split; [|left].
Qed.

(** A retry changes the store only for a row that is FAILED, and then by a
    run of [DriveService.uploadFile] for that row. *)
Lemma retryFailedSync_effect id w :
  let w' := (DriveService.retryFailedSync id w).2 in
  w' = w ∨ ∃ f, files w !! id = Some f ∧ driveSyncStatus f = FAILED
                ∧ w' = (DriveService.uploadFile (options_of f) w).2.
Proof.
  unfold DriveService.retryFailedSync, bind, gets, ret, throw. cbn.
  destruct (files w !! id) as [f|] eqn:Hf; cbn; [|by left].
  destruct (decide (driveSyncStatus f ≠ FAILED)) as [|Hfailed]; cbn; [by left|].
  apply dec_stable in Hfailed. right. exists f. split; [done|]. split; [done|].
  unfold options_of.
  destruct (DriveService.uploadFile _ w) as [[res|e] w1]; done.
Qed.

Lemma retryDriveSync_effect id w :
  let w' := (retryDriveSync id w).2 in
  w' = w ∨ ∃ f, files w !! id = Some f ∧ driveSyncStatus f = FAILED
                ∧ w' = (DriveService.uploadFile (options_of f) w).2.
Proof.
  pose proof (retryFailedSync_effect id w) as Hdrive.
  unfold retryDriveSync, bind, gets, throw. cbn.
  destruct (files w !! id) as [f|] eqn:Hf; cbn; [|by left].
  destruct (decide (driveSyncStatus f ≠ FAILED)); cbn; [by left|].
  exact Hdrive.
Qed.

(** [deleteFile] marks its row and removes the bytes; scan and sync
    columns, continuations and ledger stay. *)
Lemma deleteFile_effect id w :
  let w' := (deleteFile id w).2 in
  tasks w' = tasks w ∧ driveSyncLog w' = driveSyncLog w
  ∧ (∀ id', id' ≠ id → files w' !! id' = files w !! id')
  ∧ option_Forall2 (λ f f', keeps_sync f f' ∧ virusScanStatus f' = virusScanStatus f)
      (files w !! id) (files w' !! id).
Proof.
  unfold deleteFile, file_update, fs_unlink, new_Date, try_catch, bind, gets, ret, throw.
  cbn. destruct (files w !! id) as [f|] eqn:Hf; cbn; rewrite ?Hf; cbn.
  - destruct (disk w !! filePath f) eqn:Hdisk; cbn; rewrite ?Hdisk; cbn;
      (repeat split; [intros; by rewrite lookup_insert_ne|]);
      rewrite lookup_insert_eq; by constructor.
  - repeat split. constructor.
Qed.

End effects.

(** ** The scan gate *)

Lemma gate_inv_initial w : files w = ∅ → driveSyncLog w = [] → gate_inv w.
Proof.
  intros Hfiles Hlog. split.
  - intros id f. by rewrite Hfiles, lookup_empty.
  - intros id f t. by rewrite Hfiles, lookup_empty.
  - intros id f. by rewrite Hfiles, lookup_empty.
  - intros r. rewrite Hlog. by intros ?%elem_of_nil.
Qed.

(** The invariant survives a change that is confined to one row [id], as
    long as that row stays unsynced unless clean, stays clean once clean,
    agrees with its scan continuation, and every new ledger row is about
    [id] and then finds it clean. *)
Lemma gate_inv_step w w' id :
  gate_inv w →
  (∀ id', id' ≠ id → files w' !! id' = files w !! id') →
  (∀ id' t', id' ≠ id → tasks w' !! id' = Some t' →
             ∃ t, tasks w !! id' = Some t ∧ scan_pc t' = scan_pc t) →
  match files w !! id, files w' !! id with
  | None, None => True
  | Some f, Some f' =>
      file_id f' = file_id f
      ∧ (virusScanStatus f' ≠ clean → never_synced f')
      ∧ (virusScanStatus f = clean → virusScanStatus f' = clean)
      ∧ (∀ t', tasks w' !! id = Some t' → scan_pc_agrees (scan_pc t') (virusScanStatus f'))
  | None, Some f' =>
      file_id f' = id ∧ never_synced f'
      ∧ (∀ t', tasks w' !! id = Some t' → scan_pc_agrees (scan_pc t') (virusScanStatus f'))
  | Some _, None => False
  end →
  (∃ rows, driveSyncLog w' = driveSyncLog w ++ rows
           ∧ Forall (λ r, log_fileId r = id) rows
           ∧ (rows ≠ [] → ∃ f', files w' !! id = Some f' ∧ virusScanStatus f' = clean)) →
  gate_inv w'.
Proof.
  intros [Hkey Hpc Hsync Hlog] Hfiles Htasks Hrow (rows & Hrows & Hids & Hclean).
  split.
  - intros id0 f0 Hf0. destruct (decide (id0 = id)) as [->|Hne].
    + rewrite Hf0 in Hrow. destruct (files w !! id) as [f|] eqn:Hf.
      * destruct Hrow as (-> & _). eauto.
      * by destruct Hrow.
    + rewrite Hfiles in Hf0 by done. eauto.
  - intros id0 f0 t0 Hf0 Ht0. destruct (decide (id0 = id)) as [->|Hne].
    + rewrite Hf0 in Hrow. destruct (files w !! id) as [f|];
        [destruct Hrow as (_ & _ & _ & Hrow) | destruct Hrow as (_ & _ & Hrow)]; eauto.
    + rewrite Hfiles in Hf0 by done.
      destruct (Htasks _ _ Hne Ht0) as (t & Ht & ->). eauto.
  - intros id0 f0 Hf0 Hdirty. destruct (decide (id0 = id)) as [->|Hne].
    + rewrite Hf0 in Hrow. destruct (files w !! id) as [f|];
        [destruct Hrow as (_ & Hrow & _) | destruct Hrow as (_ & Hrow & _)]; eauto.
    + rewrite Hfiles in Hf0 by done. eauto.
  - intros r. rewrite Hrows, elem_of_app. intros [Hold|Hnew].
    + destruct (Hlog _ Hold) as (f & Hf & Hfclean).
      destruct (decide (log_fileId r = id)) as [Heq|Hne].
      * rewrite Heq in *. rewrite Hf in Hrow.
        destruct (files w' !! id) as [f'|]; [|done].
        destruct Hrow as (_ & _ & Hrow & _). eauto.
      * rewrite <- Hfiles in Hf by done. eauto.
    + rewrite Forall_forall in Hids. rewrite (Hids _ Hnew).
      apply Hclean. intros ->. by apply elem_of_nil in Hnew.
Qed.

Lemma gate_inv_same_tables w w' : same_tables w w' → gate_inv w → gate_inv w'.
Proof.
  intros (Hfiles & Htasks & Hlog) [Hkey Hpc Hsync Hledger].
  split; rewrite ?Hfiles, ?Htasks, ?Hlog; done.
Qed.

(** A run of [DriveService.uploadFile] on a clean row, followed by any
    update of the continuations that keeps their scan counters. *)
Lemma gate_inv_upload w f (g : gmap string Task → gmap string Task) :
  gate_inv w →
  files w !! file_id f = Some f →
  virusScanStatus f = clean →
  (∀ id' t', g (tasks w) !! id' = Some t' →
             ∃ t, tasks w !! id' = Some t ∧ scan_pc t' = scan_pc t) →
  gate_inv (set_tasks g (DriveService.uploadFile (FileService.options_of f) w).2).
Proof.
  intros Hinv Hf Hclean Hg.
  destruct (uploadFile_frame (FileService.options_of f) w)
    as [Htasks _ _ _ _ _ _ Hother Hsame (rows & Hrows & Hids) _].
  simpl in *.
  set (w1 := (DriveService.uploadFile (FileService.options_of f) w).2) in *.
  rewrite Hf in Hsame. inversion Hsame as [? f' [Hid Hstatus] Heq1 Heq2|]; subst.
  symmetry in Heq2.
  apply (gate_inv_step w _ (file_id f)); simpl; try done.
  - intros id' t' _. rewrite Htasks. apply Hg.
  - rewrite Hf, Heq2. split; [done|]. split; [intros Hdirty; congruence|].
    split; [congruence|].
    intros t'. rewrite Htasks. intros Ht'.
    destruct (Hg _ _ Ht') as (t & Ht & ->). rewrite Hstatus.
    by apply (inv_pc w Hinv (file_id f) f t).
  - exists rows. repeat split; [done..|]. intros _. exists f'. split; [done|congruence].
Qed.

Lemma gate_inv_retask w (g : gmap string Task → gmap string Task) :
  gate_inv w →
  (∀ id' t', g (tasks w) !! id' = Some t' →
             ∃ t, tasks w !! id' = Some t ∧ scan_pc t' = scan_pc t) →
  gate_inv (set_tasks g w).
Proof.
  intros [Hkey Hpc Hsync Hlog] Hg. split; simpl; try done.
  intros id f t' Hf Ht'. destruct (Hg _ _ Ht') as (t & Ht & ->). eauto.
Qed.

Lemma resync_keeps_scan_counter (m : gmap string Task) id t pc :
  m !! id = Some t →
  ∀ id' t', <[id := {| task_filePath := task_filePath t; scan_pc := scan_pc t;
                       sync_pc := pc |}]> m !! id' = Some t' →
            ∃ t0, m !! id' = Some t0 ∧ scan_pc t' = scan_pc t0.
Proof.
  intros Ht id' t'. destruct (decide (id' = id)) as [->|Hne].
  - rewrite lookup_insert_eq. intros [= <-]. eauto.
  - rewrite lookup_insert_ne by done. eauto.
Qed.

Section gate.
Context `{PathLib}.
Import System FileService.

(** A FAILED row is a clean row. *)
Lemma failed_is_clean w id f :
  gate_inv w → files w !! id = Some f → driveSyncStatus f = FAILED →
  virusScanStatus f = clean ∧ file_id f = id.
Proof.
  intros Hinv Hf Hfailed. split; [|by apply (inv_key w Hinv)].
  destruct (decide (virusScanStatus f = clean)) as [|Hdirty]; [done|].
  destruct (inv_sync w Hinv id f Hf Hdirty) as (Hpending & _). congruence.
Qed.

Lemma gate_inv_retry w w' id :
  gate_inv w →
  (w' = w ∨ ∃ f, files w !! id = Some f ∧ driveSyncStatus f = FAILED
                 ∧ w' = (DriveService.uploadFile (options_of f) w).2) →
  gate_inv w'.
Proof.
  intros Hinv [->|(f & Hf & Hfailed & ->)]; [done|].
  destruct (failed_is_clean w id f Hinv Hf Hfailed) as [Hclean Hid].
  rewrite <- Hid in Hf.
  pose proof (gate_inv_upload w f (λ m, m) Hinv Hf Hclean) as Hup.
  apply (gate_inv_same_tables (set_tasks (λ m, m) (DriveService.uploadFile (options_of f) w).2));
    [by repeat split | apply Hup; eauto].
Qed.

Lemma gate_inv_run_scan w id version scan :
  gate_inv w → gate_inv (run_scan id version scan w).
Proof.
  intros Hinv. unfold run_scan.
  destruct (tasks w !! id) as [t|] eqn:Ht; [|done].
  destruct (scanFileAsync_effect id (task_filePath t)
              (FileService.scanWithClamAV (development (config w)) version scan)
              (scan_pc t) w)
    as (pc' & w1 & -> & Htasks & Hlog & Hother & Hrow).
  apply (gate_inv_step w _ id); simpl; try done.
  - intros id' t' Hne. rewrite lookup_insert_ne, Htasks by done. eauto.
  - destruct (files w !! id) as [f|] eqn:Hf.
    + destruct Hrow as (f' & -> & (Hid & Hst & Hatt & Hgid) & Hagree & Hdone).
      pose proof (inv_pc w Hinv id f t Hf Ht) as Hpc.
      assert (scan_pc t = ScanDone ∨ virusScanStatus f ≠ clean) as [Hfin|Hdirty].
      { destruct (scan_pc t); simpl in Hpc; [right; congruence..|by left]. }
      * rewrite (Hdone Hfin). split; [done|].
        split; [by apply (inv_sync w Hinv id)|]. split; [done|].
        intros t'. rewrite lookup_insert_eq. intros [= <-]. simpl.
        by rewrite <- (Hdone Hfin).
      * split; [done|]. split; [|split; [done|]].
        -- intros _. destruct (inv_sync w Hinv id f Hf Hdirty) as (? & ? & ?).
           repeat split; congruence.
        -- intros t'. rewrite lookup_insert_eq. by intros [= <-].
    + by rewrite Hrow.
  - exists []. rewrite app_nil_r, Hlog. repeat split; done.
Qed.

Lemma gate_inv_run_sync w id : gate_inv w → gate_inv (run_sync id w).
Proof.
  intros Hinv. unfold run_sync.
  destruct (tasks w !! id) as [t|] eqn:Ht; [|done].
  destruct (uploadToDriveAsync_effect id (sync_pc t) w)
    as (pc' & w1 & -> & [->|(_ & f & Hf & Hclean & ->)]).
  - apply gate_inv_retask; [done|]. by apply resync_keeps_scan_counter.
  - pose proof (inv_key w Hinv id f Hf) as Hid. rewrite <- Hid in Hf.
    apply gate_inv_upload; [done..|]. by apply resync_keeps_scan_counter.
Qed.

Lemma gate_inv_delete w id : gate_inv w → gate_inv (exec (deleteFile id) w).
Proof.
  intros Hinv. unfold exec.
  destruct (deleteFile_effect id w) as (Htasks & Hlog & Hother & Hrow).
  apply (gate_inv_step w _ id); try done.
  - intros id' t' _. rewrite Htasks. eauto.
  - destruct (files w !! id) as [f|] eqn:Hf;
      inversion Hrow as [? f' [(Hid & Hst & Hatt & Hgid) Hscan] Heq1 Heq2|]; [|done].
    subst. split; [done|]. split; [|split; [congruence|]].
    + intros Hdirty. rewrite Hscan in Hdirty.
      destruct (inv_sync w Hinv id f Hf Hdirty) as (? & ? & ?).
      repeat split; congruence.
    + intros t'. rewrite Htasks, Hscan. by apply (inv_pc w Hinv id f t').
  - exists []. rewrite app_nil_r, Hlog. repeat split; done.
Qed.

Lemma gate_inv_uploadFile w dto uuid newId wo :
  gate_inv w → gate_inv (exec (FileService.uploadFile dto uuid newId wo) w).
Proof.
  intros Hinv. unfold exec.
  destruct (uploadFile_effect dto uuid newId wo w)
    as [Hsame|(Hfresh & f0 & t0 & Hfiles & Htasks & Hlog & Hid & Hpending & Hnever & Hpc & _)].
  { by apply (gate_inv_same_tables w). }
  apply (gate_inv_step w _ newId); try done.
  - intros id' Hne. by rewrite Hfiles, lookup_insert_ne.
  - intros id' t' Hne. rewrite Htasks, lookup_insert_ne by done. eauto.
  - rewrite Hfresh, Hfiles, lookup_insert_eq. split; [done|]. split; [done|].
    intros t'. rewrite Htasks, lookup_insert_eq. intros [= <-]. by rewrite Hpc.
  - exists []. rewrite app_nil_r, Hlog. repeat split; done.
Qed.

(** Every event keeps the invariant. *)
Lemma gate_inv_event w ev : gate_inv w → gate_inv (step w ev).
Proof.
  intros Hinv.
  destruct ev as [dto uuid newId wo|id version scan|id|id|id|id|y m sid r|sid|dt]; simpl.
  - by apply gate_inv_uploadFile.
  - by apply gate_inv_run_scan.
  - by apply gate_inv_run_sync.
  - apply (gate_inv_retry w _ id); [done|]. apply retryDriveSync_effect.
  - apply (gate_inv_retry w _ id); [done|]. apply retryFailedSync_effect.
  - by apply gate_inv_delete.
  - apply (gate_inv_same_tables w); [|done].
    apply same_tables_createSubmissionFolder.
  - apply (gate_inv_same_tables w); [|done].
    apply same_tables_archiveSubmission.
  - apply (gate_inv_same_tables w); [by repeat split | done].
Qed.

Lemma reachable_gate_inv w : reachable w → gate_inv w.
Proof.
  induction 1 as [w (Hfiles & _ & Hlog)|w ev _ IH].
  - by apply gate_inv_initial.
  - by apply gate_inv_event.
Qed.

Lemma reachable_run w evs : reachable w → reachable (run w evs).
Proof.
  revert w. induction evs as [|ev evs IH]; intros w Hw; simpl; [done|].
  apply IH. by constructor.
Qed.

(** C1.  In every store the system can reach, a file whose scan status is
    not 'clean' (pending, scanning, infected or error) has sync status
    PENDING, no sync attempt counted, no Drive id and no row in the ledger;
    so the sync status leaves PENDING only for a clean file.  Nothing in
    the services sets a scan status back to pending. *)
Theorem scan_gate w id f :
  reachable w →
  files w !! id = Some f →
  virusScanStatus f ≠ clean →
  driveSyncStatus f = PENDING ∧ driveSyncAttempts f = 0%Z ∧ googleDriveId f = None
  ∧ ledger_of id w = [].
Proof.
  intros Hreach Hf Hdirty. pose proof (reachable_gate_inv w Hreach) as Hinv.
  destruct (inv_sync w Hinv id f Hf Hdirty) as (Hpending & Hattempts & Hgid).
  split; [done|]. split; [done|]. split; [done|].
  unfold ledger_of. destruct (filter _ (driveSyncLog w)) as [|r rs] eqn:Hrows; [done|].
  assert (r ∈ filter (λ r, log_fileId r = id) (driveSyncLog w)) as Hin.
  { rewrite Hrows. by left. }
  apply list_elem_of_filter in Hin as [Hr Hin].
  destruct (inv_log w Hinv r Hin) as (f' & Hf' & Hclean).
  rewrite Hr, Hf in Hf'. congruence.
Qed.

End gate.

(** C1, witness: the file "f1" after a scan that found a signature. *)
Lemma scan_gate_witness :
  ∃ f, files (Sample.play Sample.office Sample.infected_scan) !! "f1" = Some f
       ∧ virusScanStatus f = infected
       ∧ driveSyncStatus f = PENDING ∧ driveSyncAttempts f = 0%Z
       ∧ googleDriveId f = None
       ∧ ledger_of "f1" (Sample.play Sample.office Sample.infected_scan) = [].
Proof.
  eexists. split; [vm_compute; reflexivity|]. split; [reflexivity|].
  eapply (@scan_gate posix_path).
  - apply reachable_run. constructor. repeat split; reflexivity.
  - vm_compute. reflexivity.
  - simpl. discriminate.
Defined.

(** ** The hand-off from scan to sync *)

Section handoff.
Import FileService.
#[local] Arguments DriveService.uploadFile : simpl never.

Local Ltac budget :=
  intros [= <- _]; cbn; unfold POLL_LIMIT in *; lia.

(** C6, amended.  One turn of the sync continuation: it never throws; it
    uses up its budget of turns, which starts at [POLL_LIMIT + 2] = 32 when
    [uploadFile] queues it, so the wait for the scan is a loop of at most
    30 reads; it changes the store only at the last read, only when that
    read finds the row clean, and then by running the Drive upload; and
    once it is over it stays over and does nothing. *)
Theorem sync_continuation_is_a_bounded_poll id pc w :
  ∃ pc' w', uploadToDriveAsync id pc w = (Ok pc', w')
    ∧ (0 ≤ sync_budget pc')%Z
    ∧ (pc ≠ SyncDone → (sync_budget pc' < sync_budget pc)%Z)
    ∧ (pc = SyncDone → pc' = SyncDone ∧ w' = w)
    ∧ (w' = w
       ∨ (pc = SyncRefetch
          ∧ ∃ f, files w !! id = Some f ∧ virusScanStatus f = clean
                 ∧ w' = (DriveService.uploadFile (options_of f) w).2)).
Proof.
  destruct (uploadToDriveAsync_effect id pc w) as (pc' & w' & Hrun & Heffect).
  exists pc', w'. split; [done|]. split; [|split; [|split; [|done]]].
  - destruct pc'; unfold sync_budget, POLL_LIMIT; lia.
  - intros Hlive. revert Hrun.
    destruct pc as [|i| |]; [| | |done];
      unfold uploadToDriveAsync, try_catch, bind, gets, ret, throw; cbn.
    + destruct (files w !! id) as [f|]; cbn; [|budget].
      destruct (decide _); cbn; budget.
    + destruct (decide _); cbn; [budget|].
      destruct (Z.ltb_spec (i + 1) POLL_LIMIT); budget.
    + destruct (files w !! id) as [f|]; cbn; [|budget].
      destruct (decide _); cbn; [budget|].
      destruct (DriveService.uploadFile _ w) as [[?|?] ?]; cbn; budget.
  - intros ->. by inversion Hrun.
Qed.

End handoff.

(** C6, counterexample.  A scan that answers after the thirty reads of the
    poll: both continuations of "f1" are over, the file is clean, and it is
    still PENDING with no attempt and no upload request, whatever number of
    further turns the sync continuation is given. *)
Lemma sync_never_starts_after_slow_scan :
  let w := Sample.play Sample.office Sample.slow_scan in
  virusScanStatus <$> files w !! "f1" = Some clean
  ∧ tasks w !! "f1" = Some {| task_filePath := "/srv/uploads/uuid-1.txt";
                              scan_pc := ScanDone; sync_pc := SyncDone |}
  ∧ DriveService.folder_of (submissions w !! "s1") = Some "drive-2"
  ∧ driveSyncStatus <$> files w !! "f1" = Some PENDING
  ∧ driveSyncAttempts <$> files w !! "f1" = Some 0%Z
  ∧ ledger_of "f1" w = []
  ∧ filter (λ c, c = ApiCreateFile "note.txt" "drive-2") (api_calls w) = []
  ∧ files (Sample.play w (replicate 100 (System.EvSync "f1"))) = files w
  ∧ api_calls (Sample.play w (replicate 100 (System.EvSync "f1"))) = api_calls w.
Proof. vm_compute. done. Qed.

(** * Further properties of the services *)

(** ** Uploads: rejection and acceptance *)

Section upload_facts.
Context `{PathLib}.
Import FileService.

(** An upload that fails one of the three checks is rejected with the
    message of the first check it fails, and nothing is stored: no byte on
    disk, no row, no continuation. *)
Theorem uploadFile_rejection_stores_nothing dto uuid newId wo w :
  ¬ passes_checks dto w →
  ∃ msg, uploadFile dto uuid newId wo w = (Throw msg, w)
         ∧ (msg = "Maximum 10 files allowed per submission"
            ∨ msg = "File size exceeds maximum of 50MB"
            ∨ msg = "File type " +:+ dto_mimeType dto +:+ " is not allowed").
Proof.
  intros Hfails.
  unfold uploadFile, validateFileCount, validateFileSize, validateMimeType, try_catch,
    bind, gets, ret, throw. cbn.
  destruct (Z.leb_spec MAX_FILES_PER_SUBMISSION
              (Z.of_nat (size (live_files_of (dto_submissionId dto) w)))) as [|Hcount];
    cbn; [eexists; split; [reflexivity|by left]|].
  destruct (Z.ltb_spec MAX_FILE_SIZE (Z.of_nat (length (dto_buffer dto)))) as [|Hsize];
    cbn; [eexists; split; [reflexivity|by right; left]|].
  destruct (decide (dto_mimeType dto ∈ ALLOWED_MIMETYPES)) as [Hmime|];
    cbn; [|eexists; split; [reflexivity|by right; right]].
  destruct Hfails. by repeat split.
Qed.

(** An upload that passes the checks and whose write succeeds can be read
    back at once: [getFileStream] on the new row delivers exactly the
    uploaded bytes, and the row is pending on both sides with both
    continuations queued. *)
Theorem uploaded_file_streams_back dto uuid newId w :
  passes_checks dto w → files w !! newId = None →
  ∃ f w', uploadFile dto uuid newId WriteDone w = (Ok f, w')
          ∧ getFileStream newId w' = (Ok (dto_buffer dto, f), w')
          ∧ fileSize f = Z.of_nat (length (dto_buffer dto))
          ∧ virusScanStatus f = pending ∧ driveSyncStatus f = PENDING
          ∧ (scan_pc <$> tasks w' !! newId) = Some ScanQueued
          ∧ (sync_pc <$> tasks w' !! newId) = Some SyncQueued.
Proof.
  intros (Hcount & Hsize & Hmime) Hfresh.
  unfold uploadFile, try_catch.
  rewrite (bind_ok _ _ _ _ _ (validateFileCount_ok _ _ Hcount)).
  rewrite (validateFileSize_ok _ Hsize), (validateMimeType_ok _ Hmime).
  unfold bind, ret, gets, fs_writeFile, modify, file_create. cbn.
  rewrite Hfresh. cbn. eexists _, _. split; [reflexivity|].
  unfold getFileStream, bind, gets, ret. cbn.
  rewrite !lookup_insert_eq. cbn. rewrite lookup_insert_eq. done.
Qed.

End upload_facts.

Lemma uploadFile_rejection_stores_nothing_witness :
  ∃ msg, @FileService.uploadFile posix_path Sample.zip_file "uuid-9" "f9" WriteDone
           Sample.office = (Throw msg, Sample.office)
         ∧ (msg = "Maximum 10 files allowed per submission"
            ∨ msg = "File size exceeds maximum of 50MB"
            ∨ msg = "File type " +:+ FileService.dto_mimeType Sample.zip_file
                    +:+ " is not allowed").
Proof.
  apply (@uploadFile_rejection_stores_nothing posix_path).
  intros (_ & _ & Hmime). vm_compute in Hmime.
  repeat (apply elem_of_cons in Hmime as [Hmime|Hmime]; [discriminate|]).
  by apply elem_of_nil in Hmime.
Defined.

Lemma uploaded_file_streams_back_witness :
  ∃ f w', @FileService.uploadFile posix_path Sample.two_bytes "uuid-1" "f1" WriteDone
            Sample.office = (Ok f, w')
          ∧ FileService.getFileStream "f1" w'
            = (Ok (FileService.dto_buffer Sample.two_bytes, f), w')
          ∧ fileSize f = Z.of_nat (length (FileService.dto_buffer Sample.two_bytes))
          ∧ virusScanStatus f = pending ∧ driveSyncStatus f = PENDING
          ∧ (scan_pc <$> tasks w' !! "f1") = Some ScanQueued
          ∧ (sync_pc <$> tasks w' !! "f1") = Some SyncQueued.
Proof.
  apply (@uploaded_file_streams_back posix_path).
  - split; [|split].
    + vm_compute. reflexivity.
    + vm_compute. discriminate.
    + vm_compute. repeat constructor.
  - vm_compute. reflexivity.
Defined.

(** ** File names *)

Section name_facts.
Context `{PathLib}.
Import FileService.



Lemma strip_class_length s : String.length (strip_class s) ≤ String.length s.
Proof.
  induction s as [|c s IH]; simpl; [done|].
  destruct (in_stripped_class c); simpl; lia.
Qed.

Lemma strip_class_chars c s : has_char c (strip_class s) → in_stripped_class c = false.
Proof.
  unfold has_char. induction s as [|a s IH]; simpl; [by intros ?%elem_of_nil|].
  destruct (in_stripped_class a) eqn:Ha; [done|]. simpl.
  intros [->|?]%elem_of_cons; auto.
Qed.

Lemma strip_class_idem s : strip_class (strip_class s) = strip_class s.
Proof.
  induction s as [|a s IH]; simpl; [done|].
  destruct (in_stripped_class a) eqn:Ha; [done|]. simpl. by rewrite Ha, IH.
Qed.

Lemma sanitizeFilename_short name :
  String.length name ≤ 255 →
  sanitizeFilename name = str_or (strip_class name) "file".
Proof.
  intros Hshort. unfold sanitizeFilename. rewrite strip_leading_idle.
  pose proof (strip_class_length name).
  destruct (decide (255 < String.length (strip_class name))); [lia|done].
Qed.

(** A name of at most 255 characters comes back non-empty and with neither
    a slash nor a backslash in it; the empty name, or a name made of
    stripped characters only, comes back as "file". *)
Theorem sanitizeFilename_has_no_separator name :
  String.length name ≤ 255 →
  sanitizeFilename name ≠ ""
  ∧ ¬ has_char "/" (sanitizeFilename name)
  ∧ ¬ has_char "\" (sanitizeFilename name)
  ∧ (strip_class name = "" → sanitizeFilename name = "file").
Proof.
  intros Hshort. rewrite (sanitizeFilename_short name Hshort). unfold str_or.
  destruct (decide (strip_class name = "")) as [Hempty|Hfull].
  - repeat split; try done; unfold has_char; simpl; intros Hin;
      repeat (apply elem_of_cons in Hin as [Hin|Hin]; [discriminate|]);
      by apply elem_of_nil in Hin.
  - repeat split; try done; intros Hin%strip_class_chars; done.
Qed.

(** Sanitizing a name of at most 255 characters a second time changes
    nothing. *)
Theorem sanitizeFilename_idempotent name :
  String.length name ≤ 255 →
  sanitizeFilename (sanitizeFilename name) = sanitizeFilename name.
Proof.
  intros Hshort. rewrite (sanitizeFilename_short name Hshort).
  destruct (decide (strip_class name = "")) as [Hempty|Hfull].
  { rewrite Hempty. reflexivity. }
  assert (str_or (strip_class name) "file" = strip_class name) as ->.
  { unfold str_or. by rewrite decide_False. }
  pose proof (strip_class_length name).
  rewrite sanitizeFilename_short by lia. rewrite strip_class_idem.
  unfold str_or. by rewrite decide_False.
Qed.


End name_facts.

Lemma sanitizeFilename_has_no_separator_witness :
  @FileService.sanitizeFilename posix_path "../etc\passwd" ≠ ""
  ∧ ¬ has_char "/" (@FileService.sanitizeFilename posix_path "../etc\passwd")
  ∧ ¬ has_char "\" (@FileService.sanitizeFilename posix_path "../etc\passwd")
  ∧ (FileService.strip_class "../etc\passwd" = ""
     → @FileService.sanitizeFilename posix_path "../etc\passwd" = "file").
Proof.
  apply (@sanitizeFilename_has_no_separator posix_path). vm_compute. lia.
Defined.

Lemma sanitizeFilename_idempotent_witness :
  @FileService.sanitizeFilename posix_path
    (@FileService.sanitizeFilename posix_path "a/b0.txt")
  = @FileService.sanitizeFilename posix_path "a/b0.txt".
Proof.
  apply (@sanitizeFilename_idempotent posix_path). vm_compute. lia.
Defined.


(** ** The scanner *)

Section scanner_facts.
Import FileService.

(** In development mode the scanner never fails: every failure of a
    [clamscan] process other than exit code 1 is answered as clean. *)
Theorem scanWithClamAV_development_never_throws version scan :
  ∃ r, scanWithClamAV true version scan = Ok r
       ∧ (scan_infected r = false → scan_virus r = None).
Proof.
  unfold scanWithClamAV, on_exec_failure.
  destruct version as [out|code msg].
  - destruct (decide (out = "")); [by eexists|].
    destruct scan as [res|code msg].
    + destruct (includes "FOUND" res); by eexists.
    + destruct (decide (code = Some 1%Z)); by eexists.
  - destruct (decide (code = Some 1%Z)); by eexists.
Qed.

(** The scanner reports an infection in two cases only: a [clamscan]
    process ended with exit code 1, or the scan ran and its output holds
    the word FOUND; and an infection always carries a name. *)
Theorem scanWithClamAV_infected_means_found dev version scan r :
  scanWithClamAV dev version scan = Ok r →
  scan_infected r = true →
  is_Some (scan_virus r)
  ∧ ((∃ msg, version = ExecFails (Some 1%Z) msg)
     ∨ (∃ out, version = ExecOk out ∧ out ≠ ""
               ∧ ((∃ msg, scan = ExecFails (Some 1%Z) msg)
                  ∨ (∃ res, scan = ExecOk res ∧ includes "FOUND" res = true)))).
Proof.
  unfold scanWithClamAV, on_exec_failure.
  destruct version as [out|code msg].
  - destruct (decide (out = "")) as [|Hout]; [by intros [= <-]|].
    destruct scan as [res|code msg].
    + destruct (includes "FOUND" res) eqn:Hfound; intros [= <-]; [|done].
      intros _. split; [by eexists|]. right. exists out. eauto 8.
    + destruct (decide (code = Some 1%Z)) as [->|]; [|destruct dev; by intros [= <-]].
      intros [= <-] _. split; [by eexists|]. right. exists out. eauto 8.
  - destruct (decide (code = Some 1%Z)) as [->|]; [|destruct dev; by intros [= <-]].
    intros [= <-] _. split; [by eexists|]. left. eauto.
Qed.

(** Outside development mode, a scanner that cannot even print its version
    makes the scan throw (unless it ended with exit code 1), and the scan
    continuation then records the status 'error' with the message. *)
Theorem scanner_failure_is_recorded id path w f code msg scan :
  files w !! id = Some f →
  code ≠ Some 1%Z →
  ∃ w', scanFileAsync id path (scanWithClamAV false (ExecFails code msg) scan)
          ScanRunning w = (Ok ScanDone, w')
        ∧ files w' !! id
          = Some (mark_scan scan_error (Some msg) (Some (clock w)) f)
        ∧ disk w' = disk w.
Proof.
  intros Hf Hcode.
  unfold scanWithClamAV, on_exec_failure. rewrite decide_False by done.
  unfold scanFileAsync, scan_failed, file_update, new_Date, try_catch, bind, gets, ret.
  cbn. rewrite Hf. cbn. eexists. split; [reflexivity|]. cbn.
  by rewrite lookup_insert_eq.
Qed.


End scanner_facts.

Lemma scanWithClamAV_infected_means_found_witness :
  is_Some (FileService.scan_virus
             {| FileService.scan_infected := true;
                FileService.scan_virus := Some "Eicar-Signature" |})
  ∧ ((∃ msg, FileService.ExecOk "ClamAV 1.4.1" = FileService.ExecFails (Some 1%Z) msg)
     ∨ (∃ out, FileService.ExecOk "ClamAV 1.4.1" = FileService.ExecOk out ∧ out ≠ ""
               ∧ ((∃ msg, FileService.ExecOk "note.txt: Eicar-Signature FOUND"
                          = FileService.ExecFails (Some 1%Z) msg)
                  ∨ (∃ res, FileService.ExecOk "note.txt: Eicar-Signature FOUND"
                            = FileService.ExecOk res
                            ∧ FileService.includes "FOUND" res = true)))).
Proof.
  apply (scanWithClamAV_infected_means_found false
           (FileService.ExecOk "ClamAV 1.4.1")
           (FileService.ExecOk "note.txt: Eicar-Signature FOUND")).
  - vm_compute. reflexivity.
  - reflexivity.
Defined.

Lemma scanner_failure_is_recorded_witness :
  ∃ w', FileService.scanFileAsync "a" "/srv/uploads/a.pdf"
          (FileService.scanWithClamAV false
             (FileService.ExecFails (Some 127%Z) "clamscan: not found")
             (FileService.ExecOk ""))
          ScanRunning Sample.only_deleted
        = (Ok ScanDone, w')
        ∧ files w' !! "a"
          = Some (FileService.mark_scan scan_error (Some "clamscan: not found")
                    (Some (clock Sample.only_deleted))
                    (Sample.row "a" "s1" 10 clean SYNCED (Some 5%Z)))
        ∧ disk w' = disk Sample.only_deleted.
Proof.
  apply (scanner_failure_is_recorded "a" "/srv/uploads/a.pdf" Sample.only_deleted).
  - vm_compute. reflexivity.
  - discriminate.
Defined.


(** ** Deleting a file *)

Section delete_facts.
Import FileService.


(** On an identifier without row, [deleteFile], [getFileStream] and
    [retryDriveSync] throw 'File not found' and change nothing; and a retry
    is refused with 'File is not in failed state', unchanged store, for
    every row that is not FAILED. *)
Theorem retryDriveSync_needs_a_failed_row id w :
  (files w !! id = None →
   deleteFile id w = (Throw "File not found", w)
   ∧ getFileStream id w = (Throw "File not found", w)
   ∧ retryDriveSync id w = (Throw "File not found", w))
  ∧ (∀ f, files w !! id = Some f → driveSyncStatus f ≠ FAILED →
          retryDriveSync id w = (Throw "File is not in failed state", w)
          ∧ DriveService.retryFailedSync id w
            = (Throw "File is not in failed state", w)).
Proof.
  split.
  - intros Hnone.
    unfold deleteFile, getFileStream, retryDriveSync, bind, gets, throw. by rewrite Hnone.
  - intros f Hf Hstatus.
    unfold retryDriveSync, DriveService.retryFailedSync, bind, gets, throw.
    rewrite Hf. by rewrite !decide_True.
Qed.

End delete_facts.


Lemma retryDriveSync_needs_a_failed_row_witness :
  FileService.retryDriveSync "a" Sample.full_quota
  = (Throw "File is not in failed state", Sample.full_quota)
  ∧ DriveService.retryFailedSync "a" Sample.full_quota
    = (Throw "File is not in failed state", Sample.full_quota).
Proof.
  apply (proj2 (retryDriveSync_needs_a_failed_row "a" Sample.full_quota)
           (Sample.row "a" "s1" FileService.MAX_FILE_SIZE clean SYNCED None)).
  - vm_compute. reflexivity.
  - discriminate.
Defined.

(** ** One run of the Drive upload *)

Section upload_run_facts.
Import DriveService.

(** Case analysis on what the store [w] holds and on its scripts. *)
Local Ltac crunch w :=
  repeat first
    [ rewrite (lookup_insert_eq (files w))
    | progress cbn
    | match goal with
      | H : files w !! ?k = _ |- context [files w !! ?k] => rewrite H
      | H : disk w !! ?k = _ |- context [disk w !! ?k] => rewrite H
      | |- context [files w !! ?k] => destruct (files w !! k) eqn:?
      | |- context [disk w !! ?k] => destruct (disk w !! k) eqn:?
      | |- context [ledger_faults w] => destruct (ledger_faults w) as [|[?|] ?] eqn:?
      | |- context [drive_faults w] => destruct (drive_faults w) as [|[?|] ?] eqn:?
      | |- context [match ?l with [] => _ | _ :: _ => _ end] =>
          is_var l; destruct l as [|[?|] ?]
      end ].

Local Ltac open_attempt :=
  unfold guarded_attempt, upload_attempt, performUpload, drive_files_create_media,
    new_Date, file_update, logDriveSync, drive_request, try_catch, bind, gets, modify,
    ret, throw.

(** One attempt sends at most one request and logs at most two rows. *)
Lemma guarded_attempt_cost o folderId attempt w :
  (∃ calls, api_calls (guarded_attempt o folderId attempt w).2 = api_calls w ++ calls
            ∧ length calls ≤ 1)
  ∧ (∃ rows, driveSyncLog (guarded_attempt o folderId attempt w).2
             = driveSyncLog w ++ rows ∧ length rows ≤ 2).
Proof.
  open_attempt. crunch w.
  all: split;
    first [ by exists []; rewrite app_nil_r; split; [|simpl; lia]
          | by eexists [_]; split; [|simpl; lia]
          | by eexists [_; _]; split; [rewrite <- app_assoc|simpl; lia] ].
Qed.

(** One attempt on an existing row never throws; it leaves the row SYNCED
    with the answer of the Drive, or SYNCING with the attempt number. *)
Lemma guarded_attempt_outcome o folderId attempt w f :
  files w !! opt_fileId o = Some f →
  ∃ r w', guarded_attempt o folderId attempt w = (Ok r, w')
    ∧ disk w' = disk w
    ∧ match r with
      | inl res =>
          res_success res = true
          ∧ files w' !! opt_fileId o
            = Some (mark_synced (res_fileId res) (res_webViewLink res) (clock w)
                      (mark_syncing attempt f))
          ∧ ∃ bytes, disk w !! opt_filePath o = Some bytes
                     ∧ Build_DriveItem (res_fileId res) (opt_filename o) [folderId]
                         (Some (opt_mimeType o)) bytes ∈ drive w'
      | inr e => files w' !! opt_fileId o = Some (mark_syncing attempt f)
      end.
Proof.
  intros Hf. open_attempt. crunch w.
  all: eexists _, _; (split; [reflexivity|]); (split; [reflexivity|]); cbn;
    rewrite ?lookup_insert_eq; try done.
  all: split; [done|]; split; [done|]; eexists; split; [done|];
    apply elem_of_app; right; by left.
Qed.

(** An attempt the Drive answers succeeds, whatever the ledger does. *)
Lemma attempt_answered o folderId attempt w f bytes :
  files w !! opt_fileId o = Some f →
  disk w !! opt_filePath o = Some bytes →
  answers_next w →
  ∃ res w', guarded_attempt o folderId attempt w = (Ok (inl res), w')
    ∧ files w' !! opt_fileId o
      = Some (mark_synced (res_fileId res) (res_webViewLink res) (clock w)
                (mark_syncing attempt f)).
Proof.
  intros Hf Hdisk Hnext. unfold answers_next in Hnext. open_attempt. crunch w.
  all: try done.
  all: eexists _, _; (split; [reflexivity|]); cbn; by rewrite ?lookup_insert_eq.
Qed.

Lemma upload_loop_cost fuel o folderId attempt lastError w :
  (∃ calls, api_calls (upload_loop fuel o folderId attempt lastError w).2
            = api_calls w ++ calls ∧ length calls ≤ fuel)
  ∧ (∃ rows, driveSyncLog (upload_loop fuel o folderId attempt lastError w).2
             = driveSyncLog w ++ rows ∧ length rows ≤ 2 * fuel).
Proof.
  revert attempt lastError w.
  induction fuel as [|fuel IH]; intros attempt lastError w; simpl.
  { split; exists []; by rewrite app_nil_r. }
  destruct (attempt <=? maxRetries)%Z;
    [|split; exists []; rewrite app_nil_r; (split; [done|simpl; lia])].
  destruct (guarded_attempt_cost o folderId attempt w)
    as [(c1 & Hc1 & Hn1) (r1 & Hr1 & Hm1)].
  unfold bind. destruct (guarded_attempt o folderId attempt w) as [[[res|e]|e] w1];
    simpl in *.
  - split; [exists c1|exists r1]; split; try done; lia.
  - destruct (IH (attempt + 1)%Z (Some e) w1) as [(c2 & Hc2 & Hn2) (r2 & Hr2 & Hm2)].
    split; [exists (c1 ++ c2)|exists (r1 ++ r2)];
      rewrite ?Hc2, ?Hr2, ?Hc1, ?Hr1, app_assoc, length_app; (split; [done|lia]).
  - split; [exists c1|exists r1]; split; try done; lia.
Qed.

(** A run of [DriveService.uploadFile] sends at most three requests to the
    Drive and appends at most six rows to the ledger. *)
Theorem uploadFile_tries_three_times o w :
  (∃ calls, api_calls (uploadFile o w).2 = api_calls w ++ calls ∧ length calls ≤ 3)
  ∧ (∃ rows, driveSyncLog (uploadFile o w).2 = driveSyncLog w ++ rows
             ∧ length rows ≤ 6).
Proof.
  unfold uploadFile, bind, gets. cbv beta iota.
  destruct (folder_of (submissions w !! opt_submissionId o)) as [folderId|];
    [|split; exists []; rewrite app_nil_r; (split; [reflexivity|simpl; lia])].
  pose proof (upload_loop_cost (Z.to_nat maxRetries) o folderId 1 None w) as Hcost.
  destruct (upload_loop (Z.to_nat maxRetries) o folderId 1 None w) as [[[res|last]|e] w1];
    simpl in *; [exact Hcost| |exact Hcost].
  unfold file_update, throw.
  destruct (files w1 !! opt_fileId o); simpl; exact Hcost.
Qed.

(** The loop on an existing row: it never throws; it ends at the first
    attempt the Drive accepts, with the row SYNCED, or after its last
    attempt, with the message of the last error. *)
Lemma upload_loop_outcome fuel o folderId attempt lastError w f :
  files w !! opt_fileId o = Some f →
  (attempt + Z.of_nat fuel - 1 ≤ maxRetries)%Z →
  ∃ r w', upload_loop fuel o folderId attempt lastError w = (Ok r, w')
    ∧ disk w' = disk w
    ∧ match r with
      | inl res =>
          res_success res = true
          ∧ ∃ f' bytes,
              files w' !! opt_fileId o = Some f'
              ∧ driveSyncStatus f' = SYNCED
              ∧ googleDriveId f' = Some (res_fileId res)
              ∧ googleDriveUrl f' = Some (res_webViewLink res)
              ∧ driveSyncError f' = None
              ∧ (attempt ≤ driveSyncAttempts f' ≤ attempt + Z.of_nat fuel - 1)%Z
              ∧ disk w !! opt_filePath o = Some bytes
              ∧ Build_DriveItem (res_fileId res) (opt_filename o) [folderId]
                  (Some (opt_mimeType o)) bytes ∈ drive w'
      | inr last =>
          ∃ f', files w' !! opt_fileId o = Some f'
                ∧ (fuel = 0 → last = lastError ∧ f' = f)
                ∧ (fuel ≠ 0 → is_Some last
                              ∧ driveSyncAttempts f' = (attempt + Z.of_nat fuel - 1)%Z)
      end.
Proof.
  revert attempt lastError w f.
  induction fuel as [|fuel IH]; intros attempt lastError w f Hf Hbound; simpl.
  { eexists _, _. split; [reflexivity|]. split; [done|]. exists f. by repeat split. }
  destruct (Z.leb_spec attempt maxRetries) as [_|]; [|lia].
  destruct (guarded_attempt_outcome o folderId attempt w f Hf)
    as (r & w1 & Hrun & Hdisk & Hr).
  unfold bind. rewrite Hrun. destruct r as [res|e].
  - destruct Hr as (Hok & Hrow & bytes & Hbytes & Hitem).
    eexists _, _. split; [reflexivity|]. split; [done|]. split; [done|].
    eexists _, bytes. split; [exact Hrow|]. cbn. repeat split; try done; lia.
  - destruct fuel as [|fuel].
    + simpl. eexists _, _. split; [reflexivity|]. split; [done|].
      eexists. split; [exact Hr|]. split; [done|]. intros _. split; [by eexists|].
      cbn. lia.
    + destruct (IH (attempt + 1)%Z (Some e) w1 _ Hr ltac:(lia))
        as (r2 & w2 & Hrun2 & Hdisk2 & Hr2).
      rewrite Hrun2. eexists _, _. split; [reflexivity|].
      split; [congruence|]. destruct r2 as [res|last].
      * destruct Hr2 as (Hok & f' & bytes & Hrow & ? & ? & ? & ? & Hatt & Hbytes & Hitem).
        split; [done|]. exists f', bytes. cbn in Hatt.
        repeat split; try done; try lia. congruence.
      * destruct Hr2 as (f' & Hrow & _ & Hlast). exists f'. split; [done|].
        split; [done|]. intros _. destruct Hlast as [Hsome Hatt]; [done|].
        split; [done|]. lia.
Qed.

(** When [DriveService.uploadFile] returns, the row is SYNCED with the id
    and the link of the uploaded copy, its error is cleared, the attempt
    counter is between 1 and 3, and the Drive holds, under the folder of
    the submission and under the file's name, the bytes that were on
    disk. *)
Theorem uploadFile_success_is_recorded o w f res w' :
  files w !! opt_fileId o = Some f →
  uploadFile o w = (Ok res, w') →
  res_success res = true
  ∧ ∃ f' folderId bytes,
      files w' !! opt_fileId o = Some f'
      ∧ driveSyncStatus f' = SYNCED
      ∧ googleDriveId f' = Some (res_fileId res)
      ∧ googleDriveUrl f' = Some (res_webViewLink res)
      ∧ driveSyncError f' = None
      ∧ (1 ≤ driveSyncAttempts f' ≤ 3)%Z
      ∧ folder_of (submissions w !! opt_submissionId o) = Some folderId
      ∧ disk w !! opt_filePath o = Some bytes
      ∧ Build_DriveItem (res_fileId res) (opt_filename o) [folderId]
          (Some (opt_mimeType o)) bytes ∈ drive w'.
Proof.
  intros Hf. unfold uploadFile, bind at 1, gets at 1.
  destruct (folder_of (submissions w !! opt_submissionId o)) as [folderId|]; [|done].
  destruct (upload_loop_outcome (Z.to_nat maxRetries) o folderId 1 None w f Hf)
    as (r & w1 & Hrun & Hdisk & Hr); [done|].
  unfold bind. rewrite Hrun. destruct r as [res1|last].
  - intros [= <- <-].
    destruct Hr as (Hok & f' & bytes & Hrow & ? & ? & ? & ? & Hatt & ? & ?).
    split; [done|]. exists f', folderId, bytes.
    change (Z.of_nat (Z.to_nat maxRetries)) with 3%Z in Hatt.
    repeat (split; [first [done | lia]|]). done.
  - unfold file_update, throw. destruct (files w1 !! opt_fileId o); done.
Qed.

(** When [DriveService.uploadFile] throws although the folder of the
    submission is provisioned, all three attempts were made, and the row is
    FAILED with a non-empty error message: the message thrown, or 'Upload
    failed after retries' when that one is empty. *)
Theorem uploadFile_failure_is_recorded o w f folderId e w' :
  files w !! opt_fileId o = Some f →
  folder_of (submissions w !! opt_submissionId o) = Some folderId →
  uploadFile o w = (Throw e, w') →
  ∃ f' m, files w' !! opt_fileId o = Some f'
          ∧ driveSyncStatus f' = FAILED
          ∧ driveSyncAttempts f' = 3%Z
          ∧ driveSyncError f' = Some m ∧ m ≠ ""
          ∧ m = str_or e "Upload failed after retries".
Proof.
  intros Hf Hfolder. unfold uploadFile, bind at 1, gets at 1. rewrite Hfolder.
  destruct (upload_loop_outcome (Z.to_nat maxRetries) o folderId 1 None w f Hf)
    as (r & w1 & Hrun & Hdisk & Hr); [done|].
  unfold bind. rewrite Hrun. destruct r as [res1|last]; [done|].
  destruct Hr as (f1 & Hrow & _ & Hlast).
  destruct Hlast as [[m Hm] Hatt]; [done|]. subst last.
  unfold file_update, throw. rewrite Hrow. intros [= <- <-]. cbn.
  rewrite lookup_insert_eq. eexists _, _. split; [reflexivity|]. cbn.
  repeat split; [done|]. unfold str_or, AFTER_RETRIES.
  destruct (decide (m = "")); done.
Qed.

(** A retry of a FAILED row, with the folder provisioned, the bytes on
    disk and the Drive answering, ends SYNCED at attempt 1 with the error
    cleared: the counter starts again, it does not go on counting. *)
Theorem retry_can_succeed id w f folderId bytes :
  files w !! id = Some f → file_id f = id →
  driveSyncStatus f = FAILED →
  folder_of (submissions w !! submissionId f) = Some folderId →
  disk w !! filePath f = Some bytes →
  answers_next w →
  ∃ w' f', FileService.retryDriveSync id w = (Ok tt, w')
           ∧ files w' !! id = Some f'
           ∧ driveSyncStatus f' = SYNCED ∧ driveSyncAttempts f' = 1%Z
           ∧ driveSyncError f' = None ∧ is_Some (googleDriveId f').
Proof.
  intros Hf Hid Hfailed Hfolder Hdisk Hnext.
  set (o := {| opt_submissionId := submissionId f; opt_fileId := file_id f;
               opt_filePath := filePath f; opt_filename := originalFilename f;
               opt_mimeType := mimeType f |}).
  assert (files w !! opt_fileId o = Some f) as Hf' by (by cbn; rewrite Hid).
  destruct (attempt_answered o folderId 1 w f bytes Hf' Hdisk Hnext)
    as (res & w1 & Hrun & Hrow).
  assert (uploadFile o w = (Ok res, w1)) as Hup.
  { unfold uploadFile, bind, gets. cbv beta iota. cbn [opt_submissionId o].
    rewrite Hfolder. change (Z.to_nat maxRetries) with 3%nat. cbn [upload_loop].
    change (1 <=? maxRetries)%Z with true. cbv iota. unfold bind. by rewrite Hrun. }
  unfold FileService.retryDriveSync, retryFailedSync, bind, gets. cbv beta iota.
  rewrite Hf. rewrite decide_False by (by intros []). cbv beta iota.
  rewrite Hf. rewrite decide_False by (by intros []). fold o. rewrite Hup.
  eexists _, _. split; [reflexivity|]. cbn in Hrow. rewrite Hid in Hrow.
  split; [exact Hrow|]. cbn. by repeat split.
Qed.

End upload_run_facts.

Lemma uploadFile_success_is_recorded_witness :
  ∃ res w',
    DriveService.uploadFile Sample.note_options (Sample.play Sample.office Sample.scanned)
    = (Ok res, w')
    ∧ DriveService.res_success res = true
    ∧ ∃ f' folderId bytes,
        files w' !! "f1" = Some f'
        ∧ driveSyncStatus f' = SYNCED
        ∧ googleDriveId f' = Some (DriveService.res_fileId res)
        ∧ googleDriveUrl f' = Some (DriveService.res_webViewLink res)
        ∧ driveSyncError f' = None
        ∧ (1 ≤ driveSyncAttempts f' ≤ 3)%Z
        ∧ DriveService.folder_of
            (submissions (Sample.play Sample.office Sample.scanned) !! "s1")
          = Some folderId
        ∧ disk (Sample.play Sample.office Sample.scanned) !! "/srv/uploads/uuid-1.txt"
          = Some bytes
        ∧ Build_DriveItem (DriveService.res_fileId res) "note.txt" [folderId]
            (Some "text/plain") bytes ∈ drive w'.
Proof.
  eexists _, _. split; [vm_compute; reflexivity|].
  eapply (uploadFile_success_is_recorded Sample.note_options
            (Sample.play Sample.office Sample.scanned)).
  - vm_compute. reflexivity.
  - vm_compute. reflexivity.
Defined.

Lemma uploadFile_failure_is_recorded_witness :
  ∃ f' m,
    files (DriveService.uploadFile Sample.note_options
             (Sample.play Sample.thrice_rejected Sample.scanned)).2 !! "f1" = Some f'
    ∧ driveSyncStatus f' = FAILED
    ∧ driveSyncAttempts f' = 3%Z
    ∧ driveSyncError f' = Some m ∧ m ≠ ""
    ∧ m = str_or "Rate Limit Exceeded" "Upload failed after retries".
Proof.
  eapply (uploadFile_failure_is_recorded Sample.note_options
            (Sample.play Sample.thrice_rejected Sample.scanned)).
  - vm_compute. reflexivity.
  - vm_compute. reflexivity.
  - vm_compute. reflexivity.
Defined.

Lemma retry_can_succeed_witness :
  ∃ w' f', FileService.retryDriveSync "f1" Sample.failed_once = (Ok tt, w')
           ∧ files w' !! "f1" = Some f'
           ∧ driveSyncStatus f' = SYNCED ∧ driveSyncAttempts f' = 1%Z
           ∧ driveSyncError f' = None ∧ is_Some (googleDriveId f').
Proof.
  eapply (retry_can_succeed "f1" Sample.failed_once).
  - vm_compute. reflexivity.
  - reflexivity.
  - reflexivity.
  - vm_compute. reflexivity.
  - vm_compute. reflexivity.
  - vm_compute. reflexivity.
Defined.

(** ** Provisioning the folder of a submission *)

Section provisioning_facts.
Import DriveService.

Global Instance drive_only_preorder : PreOrder drive_only.
Proof.
  split.
  - intros w. by split.
  - intros w1 w2 w3 [] []. split; try congruence. by etrans.
Qed.

Lemma drive_only_request c : preserves drive_only (drive_request c).
Proof.
  intros w. unfold drive_request.
  destruct (drive_faults w) as [|[e|] rest]; by split.
Qed.

Lemma drive_only_createFolder name parent : preserves drive_only (createFolder name parent).
Proof.
  unfold createFolder, drive_files_create_folder.
  apply preserves_bind; [apply drive_only_request|]. intros _.
  apply preserves_bind; [apply preserves_gets|]. intros id.
  apply preserves_bind; [|intros _; apply preserves_ret].
  apply preserves_modify. intros w. split; try done. by apply prefix_app_r.
Qed.

Lemma drive_only_getOrCreateFolder name parent :
  preserves drive_only (getOrCreateFolder name parent).
Proof.
  unfold getOrCreateFolder, drive_files_list.
  apply preserves_bind.
  - apply preserves_bind; [apply drive_only_request|]. intros _. apply preserves_gets.
  - intros [|f fs]; simpl; [apply drive_only_createFolder | apply preserves_ret].
Qed.

Lemma holds_folder_mono w w' name parent id :
  drive_only w w' → holds_folder w name parent id → holds_folder w' name parent id.
Proof.
  intros Hw (it & Hin & Hid & Hnamed). exists it. split; [|done].
  destruct (do_drive _ _ Hw) as [more ->]. apply elem_of_app. by left.
Qed.

Lemma getOrCreateFolder_holds name parent w id w1 :
  getOrCreateFolder name parent w = (Ok id, w1) → holds_folder w1 name parent id.
Proof.
  intros Hrun. destruct (getOrCreateFolder_result _ _ _ _ _ Hrun) as (it & rest & Hfound & Hid).
  exists it. unfold folders_named in Hfound.
  assert (it ∈ filter (λ it, is_folder_named name parent it = true) (drive w1)) as Hin
    by (rewrite Hfound; left).
  apply list_elem_of_filter in Hin as [? ?]. done.
Qed.

Lemma createFolder_holds name parent w id w1 :
  createFolder name parent w = (Ok id, w1) →
  id = fresh_id (drive w) ∧ holds_folder w1 name parent id.
Proof.
  unfold createFolder, drive_files_create_folder, bind, gets, modify, ret.
  destruct (drive_request (ApiCreateFolder name parent) w) as [[[]|e] w0] eqn:Hreq; [|done].
  assert (drive w0 = drive w) as Hdrive.
  { unfold drive_request in Hreq. destruct (drive_faults w) as [|[?|] ?]; by simplify_eq. }
  intros [= <- <-]. rewrite Hdrive. split; [done|].
  eexists. split; [apply elem_of_app; right; left|]. split; [done|].
  unfold is_folder_named. cbn. rewrite !bool_decide_eq_true_2; [done..| |done]. by left.
Qed.

Lemma fresh_id_not_empty items : fresh_id items ≠ "".
Proof. done. Qed.



Local Ltac handler_throws :=
  unfold bind, submission_update, throw;
  match goal with |- context [submissions ?w !! ?k] => destruct (submissions w !! k) end;
  intros; discriminate.

(** Runs the next call of a [try] block; [lemma] is its frame. *)
Local Ltac stage H lemma a w1 :=
  unfold bind at 1;
  match goal with
  | |- context [match ?m ?w with _ => _ end] =>
      let Hd := fresh "Hd" in
      pose proof (lemma w) as Hd;
      destruct (m w) as [[a|?] w1] eqn:H; simpl in Hd
  end.

(** When [createSubmissionFolder] returns, the Drive holds the path
    root / year / month / reference, the row of the submission records the
    id and the link of the last folder with status SYNCED, and
    [DriveService.uploadFile] will find that folder.  The error column and
    the retry counter of an earlier failure are left as they were. *)
Theorem createSubmissionFolder_success year month sid reference w id url w' :
  createSubmissionFolder year month sid reference w = (Ok (id, url), w') →
  url = folderUrl_of id
  ∧ folder_of (submissions w' !! sid) = Some id
  ∧ (∃ s s', submissions w !! sid = Some s ∧ submissions w' !! sid = Some s'
             ∧ googleDriveFolderUrl s' = Some url
             ∧ sub_driveSyncStatus s' = SYNCED
             ∧ sub_driveSyncError s' = sub_driveSyncError s
             ∧ driveSyncRetries s' = driveSyncRetries s)
  ∧ (∃ yearId monthId,
       holds_folder w' year (rootFolderId (config w)) yearId
       ∧ holds_folder w' month yearId monthId
       ∧ holds_folder w' reference monthId id).
Proof.
  unfold createSubmissionFolder, try_catch, new_Date.
  unfold bind at 1, gets at 1. cbv beta iota.
  stage Hy (drive_only_getOrCreateFolder year (rootFolderId (config w))) yearId w1;
    [|handler_throws].
  stage Hm (drive_only_getOrCreateFolder month yearId) monthId w2; [|handler_throws].
  stage Hl (drive_only_createFolder reference monthId) leaf w3; [|handler_throws].
  unfold bind at 1, gets at 1. cbv beta iota.
  unfold bind at 1, submission_update at 1.
  assert (submissions w3 = submissions w) as Hsub.
  { rewrite (do_submissions _ _ Hd1), (do_submissions _ _ Hd0). apply Hd. }
  rewrite Hsub. destruct (submissions w !! sid) as [s|] eqn:Hs; [|handler_throws].
  cbn. intros [= <- <- <-]. cbn. rewrite lookup_insert_eq. cbn.
  apply createFolder_holds in Hl as [Hfresh Hleaf].
  split; [done|]. split.
  { rewrite decide_False; [done|]. rewrite Hfresh. apply fresh_id_not_empty. }
  split; [eexists _, _; by repeat split|].
  exists yearId, monthId. unfold holds_folder. cbn.
  split; [|split; [|exact Hleaf]].
  - eapply holds_folder_mono; [etrans; [exact Hd0|exact Hd1]|].
    eapply getOrCreateFolder_holds, Hy.
  - eapply holds_folder_mono; [exact Hd1|]. eapply getOrCreateFolder_holds, Hm.
Qed.

(** When [createSubmissionFolder] fails for a submission that exists, the
    row is FAILED with the message it throws, its retry counter is one
    higher, and the folder it had recorded, if any, is still recorded. *)
Theorem createSubmissionFolder_failure year month sid reference w s e w' :
  submissions w !! sid = Some s →
  createSubmissionFolder year month sid reference w = (Throw e, w') →
  ∃ s', submissions w' !! sid = Some s'
        ∧ sub_driveSyncStatus s' = FAILED
        ∧ sub_driveSyncError s' = Some e
        ∧ driveSyncRetries s' = (driveSyncRetries s + 1)%Z
        ∧ googleDriveFolderId s' = googleDriveFolderId s.
Proof.
  intros Hs.
  assert (∀ w1 msg, submissions w1 = submissions w →
            (submission_update sid (λ s0,
               {| referenceId := referenceId s0;
                  submitterId := submitterId s0;
                  googleDriveFolderId := googleDriveFolderId s0;
                  googleDriveFolderUrl := googleDriveFolderUrl s0;
                  sub_driveSyncStatus := FAILED;
                  sub_lastDriveSyncAt := sub_lastDriveSyncAt s0;
                  sub_driveSyncError := Some msg;
                  driveSyncRetries := (driveSyncRetries s0 + 1)%Z |}) ;;;
             @throw (string * string) msg) w1
            = (Throw e, w') →
            ∃ s', submissions w' !! sid = Some s'
                  ∧ sub_driveSyncStatus s' = FAILED
                  ∧ sub_driveSyncError s' = Some e
                  ∧ driveSyncRetries s' = (driveSyncRetries s + 1)%Z
                  ∧ googleDriveFolderId s' = googleDriveFolderId s) as Hcatch.
  { intros w1 msg Hsub. unfold bind, submission_update, throw. rewrite Hsub, Hs.
    intros [= <- <-]. cbn. rewrite lookup_insert_eq. eexists. by repeat split. }
  unfold createSubmissionFolder, try_catch, new_Date.
  unfold bind at 1, gets at 1. cbv beta iota.
  stage Hy (drive_only_getOrCreateFolder year (rootFolderId (config w))) yearId w1;
    [|apply Hcatch, Hd].
  stage Hm (drive_only_getOrCreateFolder month yearId) monthId w2;
    [|apply Hcatch; rewrite (do_submissions _ _ Hd0); apply Hd].
  stage Hl (drive_only_createFolder reference monthId) leaf w3;
    [|apply Hcatch; rewrite (do_submissions _ _ Hd1), (do_submissions _ _ Hd0); apply Hd].
  unfold bind at 1, gets at 1. cbv beta iota.
  unfold bind at 1, submission_update at 1.
  rewrite (do_submissions _ _ Hd1), (do_submissions _ _ Hd0), (do_submissions _ _ Hd), Hs.
  done.
Qed.

Lemma drive_request_quiet c w :
  Forall (λ x, x = None) (drive_faults w) →
  ∃ w1, drive_request c w = (Ok tt, w1) ∧ drive_only w w1 ∧ drive w1 = drive w
        ∧ Forall (λ x, x = None) (drive_faults w1).
Proof.
  intros Hquiet. unfold drive_request.
  destruct (drive_faults w) as [|[e|] rest] eqn:Hscript.
  - eexists. split; [done|]. split; [by split|]. cbn. by rewrite Hscript.
  - by inversion Hquiet.
  - eexists. split; [done|]. split; [by split|]. split; [done|]. cbn.
    by inversion Hquiet.
Qed.

Lemma createFolder_quiet name parent w :
  Forall (λ x, x = None) (drive_faults w) →
  ∃ id w1, createFolder name parent w = (Ok id, w1) ∧ drive_only w w1
           ∧ length (drive w) < length (drive w1)
           ∧ Forall (λ x, x = None) (drive_faults w1).
Proof.
  intros Hquiet.
  destruct (drive_request_quiet (ApiCreateFolder name parent) w Hquiet)
    as (w0 & Hreq & Hd & Hdrive & Hquiet0).
  unfold createFolder, drive_files_create_folder, bind, gets, modify, ret.
  rewrite Hreq. eexists _, _. split; [reflexivity|]. cbn.
  split; [|split; [rewrite length_app, Hdrive; simpl; lia|done]].
  etrans; [exact Hd|]. split; try done. by apply prefix_app_r.
Qed.

Lemma getOrCreateFolder_quiet name parent w :
  Forall (λ x, x = None) (drive_faults w) →
  ∃ id w1, getOrCreateFolder name parent w = (Ok id, w1) ∧ drive_only w w1
           ∧ Forall (λ x, x = None) (drive_faults w1).
Proof.
  intros Hquiet.
  destruct (drive_request_quiet (ApiList name parent) w Hquiet)
    as (w0 & Hreq & Hd & Hdrive & Hquiet0).
  unfold getOrCreateFolder, drive_files_list.
  unfold bind at 1. unfold bind at 1. rewrite Hreq. unfold gets. cbn.
  destruct (filter _ (drive w0)) as [|f fs]; cbn.
  - destruct (createFolder_quiet name parent w0 Hquiet0) as (id & w1 & Hrun & Hd1 & _ & ?).
    exists id, w1. split; [done|]. split; [by etrans|done].
  - unfold ret. by eexists _, _.
Qed.

(** For a submission that does not exist, [createSubmissionFolder] still
    asks the Drive for the three folders, and only then fails on the
    missing row: with the Drive answering, a folder of the reference is
    left in the Drive, recorded in no row, and what is thrown is the
    message of the failed row update. *)
Theorem createSubmissionFolder_orphan year month sid reference w :
  submissions w !! sid = None →
  Forall (λ x, x = None) (drive_faults w) →
  ∃ w' yearId monthId id,
    createSubmissionFolder year month sid reference w = (Throw RECORD_NOT_FOUND, w')
    ∧ submissions w' = submissions w
    ∧ length (drive w) < length (drive w')
    ∧ holds_folder w' year (rootFolderId (config w)) yearId
    ∧ holds_folder w' month yearId monthId
    ∧ holds_folder w' reference monthId id.
Proof.
  intros Hs Hquiet.
  destruct (getOrCreateFolder_quiet year (rootFolderId (config w)) w Hquiet)
    as (yearId & w1 & Hy & Hd1 & Hquiet1).
  destruct (getOrCreateFolder_quiet month yearId w1 Hquiet1)
    as (monthId & w2 & Hm & Hd2 & Hquiet2).
  destruct (createFolder_quiet reference monthId w2 Hquiet2)
    as (id & w3 & Hl & Hd3 & Hgrows & _).
  assert (submissions w3 = submissions w) as Hsub.
  { rewrite (do_submissions _ _ Hd3), (do_submissions _ _ Hd2). apply Hd1. }
  exists w3, yearId, monthId, id.
  unfold createSubmissionFolder, try_catch, new_Date.
  unfold bind at 1, gets at 1. cbv beta iota.
  unfold bind at 1. rewrite Hy. unfold bind at 1. rewrite Hm.
  unfold bind at 1. rewrite Hl. unfold bind, gets, submission_update, throw.
  assert (submissions w3 !! sid = None) as Hs3 by (by rewrite Hsub).
  cbv beta. rewrite !Hs3. split; [done|]. split; [done|]. split.
  { pose proof (prefix_length _ _ (do_drive _ _ Hd1)).
    pose proof (prefix_length _ _ (do_drive _ _ Hd2)). lia. }
  split; [|split].
  - eapply holds_folder_mono; [etrans; [exact Hd2|exact Hd3]|].
    eapply getOrCreateFolder_holds, Hy.
  - eapply holds_folder_mono; [exact Hd3|]. eapply getOrCreateFolder_holds, Hm.
  - eapply createFolder_holds, Hl.
Qed.

End provisioning_facts.

Lemma createSubmissionFolder_success_witness :
  ∃ id url w',
    DriveService.createSubmissionFolder "2026" "November" "s1" "REF-000001" Sample.office
    = (Ok (id, url), w')
    ∧ (url = DriveService.folderUrl_of id
       ∧ DriveService.folder_of (submissions w' !! "s1") = Some id
       ∧ (∃ s s', submissions Sample.office !! "s1" = Some s
                  ∧ submissions w' !! "s1" = Some s'
                  ∧ googleDriveFolderUrl s' = Some url
                  ∧ sub_driveSyncStatus s' = SYNCED
                  ∧ sub_driveSyncError s' = sub_driveSyncError s
                  ∧ driveSyncRetries s' = driveSyncRetries s)
       ∧ (∃ yearId monthId,
            holds_folder w' "2026" (rootFolderId (config Sample.office)) yearId
            ∧ holds_folder w' "November" yearId monthId
            ∧ holds_folder w' "REF-000001" monthId id)).
Proof.
  eexists _, _, _. split; [vm_compute; reflexivity|].
  eapply (createSubmissionFolder_success "2026" "November" "s1" "REF-000001" Sample.office).
  vm_compute. reflexivity.
Defined.

Lemma createSubmissionFolder_failure_witness :
  ∃ s',
    submissions
      (DriveService.createSubmissionFolder "2026" "November" "s1" "REF-000001"
         (set_drive_faults (λ _, [Some "Rate Limit Exceeded"]) Sample.office)).2 !! "s1"
    = Some s'
    ∧ sub_driveSyncStatus s' = FAILED
    ∧ sub_driveSyncError s' = Some "Rate Limit Exceeded"
    ∧ driveSyncRetries s' = (driveSyncRetries Sample.fresh_submission + 1)%Z
    ∧ googleDriveFolderId s' = googleDriveFolderId Sample.fresh_submission.
Proof.
  eapply (createSubmissionFolder_failure "2026" "November" "s1" "REF-000001"
            (set_drive_faults (λ _, [Some "Rate Limit Exceeded"]) Sample.office)).
  - vm_compute. reflexivity.
  - vm_compute. reflexivity.
Defined.

Lemma createSubmissionFolder_orphan_witness :
  ∃ w' yearId monthId id,
    DriveService.createSubmissionFolder "2026" "November" "s9" "REF-000009" Sample.office
    = (Throw RECORD_NOT_FOUND, w')
    ∧ submissions w' = submissions Sample.office
    ∧ length (drive Sample.office) < length (drive w')
    ∧ holds_folder w' "2026" (rootFolderId (config Sample.office)) yearId
    ∧ holds_folder w' "November" yearId monthId
    ∧ holds_folder w' "REF-000009" monthId id.
Proof.
  apply (createSubmissionFolder_orphan "2026" "November" "s9" "REF-000009" Sample.office).
  - vm_compute. reflexivity.
  - vm_compute. constructor.
Defined.

(** ** Archiving, alerts and the upload without retries *)

Section side_services.
Import DriveService.








Local Ltac open_up w :=
  repeat first
    [ progress cbn
    | match goal with
      | |- context [disk w !! ?k] => destruct (disk w !! k) eqn:?
      | |- context [drive_faults w] => destruct (drive_faults w) as [|[?|] ?] eqn:?
      end ].

(** [uploadFileResumable] uploads without the bookkeeping of [uploadFile]:
    it makes one attempt at most, and writes neither the file row nor the
    ledger, so the row does not become SYNCED.  When it returns, the Drive
    holds the bytes under the folder of the submission; when it throws, the
    Drive holds what it held. *)
Theorem uploadFileResumable_keeps_no_books o w :
  ∃ r w', uploadFileResumable o w = (r, w')
    ∧ files w' = files w ∧ driveSyncLog w' = driveSyncLog w
    ∧ (∃ calls, api_calls w' = api_calls w ++ calls ∧ length calls ≤ 1)
    ∧ match r with
      | Ok res =>
          res_success res = true
          ∧ ∃ folderId bytes,
              folder_of (submissions w !! opt_submissionId o) = Some folderId
              ∧ disk w !! opt_filePath o = Some bytes
              ∧ drive w' = drive w ++ [Build_DriveItem (res_fileId res) (opt_filename o)
                                         [folderId] (Some (opt_mimeType o)) bytes]
      | Throw e => drive w' = drive w
      end.
Proof.
  unfold uploadFileResumable, drive_files_create_media, drive_request, try_catch,
    bind, gets, modify, ret, throw.
  destruct (folder_of (submissions w !! opt_submissionId o)) as [folderId|].
  2: { eexists _, _. split; [reflexivity|]. cbn. split; [done|]. split; [done|].
       split; [|done]. exists []. rewrite app_nil_r. split; [done|simpl; lia]. }
  open_up w.
  all: eexists _, _; (split; [reflexivity|]); cbn; (split; [done|]); (split; [done|]).
  all: split; [first [ by exists []; rewrite app_nil_r; split; [|simpl; lia]
                     | by eexists [_]; split; [|simpl; lia] ]|].
  all: try done.
  all: split; [done|]; by eexists _, _.
Qed.

End side_services.



(** ** The sync columns over any run *)

Section sync_columns.
Context `{PathLib}.
Import System FileService.
#[local] Arguments DriveService.uploadFile : simpl never.

(** The row a run of [DriveService.uploadFile] leaves: untouched when the
    folder is missing, SYNCED, or FAILED after the last attempt. *)
Lemma uploadFile_row o w f :
  files w !! DriveService.opt_fileId o = Some f →
  ∃ f', files (DriveService.uploadFile o w).2 !! DriveService.opt_fileId o = Some f'
        ∧ (f' = f
           ∨ (driveSyncStatus f' = SYNCED ∧ is_Some (googleDriveId f')
              ∧ (1 ≤ driveSyncAttempts f' ≤ DriveService.maxRetries)%Z)
           ∨ (driveSyncStatus f' = FAILED
              ∧ driveSyncAttempts f' = DriveService.maxRetries)).
Proof.
  intros Hf. unfold DriveService.uploadFile, bind, gets. cbv beta iota.
  destruct (DriveService.folder_of _) as [folderId|]; [|by exists f; split; [|left]].
  destruct (upload_loop_outcome (Z.to_nat DriveService.maxRetries) o folderId 1 None w f Hf)
    as (r & w1 & Hrun & _ & Hr); [done|].
  rewrite Hrun. destruct r as [res|last].
  - destruct Hr as (_ & f' & bytes & Hrow & Hst & Hid & _ & _ & Hatt & _).
    exists f'. split; [exact Hrow|]. right. left. split; [done|]. split; [by eexists|].
    change (Z.of_nat (Z.to_nat DriveService.maxRetries)) with 3%Z in Hatt.
    unfold DriveService.maxRetries. lia.
  - destruct Hr as (f1 & Hrow & _ & Hlast). destruct Hlast as [_ Hatt]; [done|].
    unfold file_update, throw. rewrite Hrow. cbn. rewrite lookup_insert_eq.
    eexists. split; [reflexivity|]. right. right. cbn. split; [done|].
    rewrite Hatt. done.
Qed.

Lemma settled_keeps_sync f f' : keeps_sync f f' → settled f → settled f'.
Proof.
  intros (_ & Hst & Hatt & Hid) (Hbound & Hpending & Hsynced & Hfailed).
  unfold settled, never_synced in *. rewrite Hst, Hatt, Hid. done.
Qed.

Lemma settled_after_upload o w f :
  files w !! DriveService.opt_fileId o = Some f → settled f →
  ∃ f', files (DriveService.uploadFile o w).2 !! DriveService.opt_fileId o = Some f'
        ∧ settled f'.
Proof.
  intros Hf Hsettled. destruct (uploadFile_row o w f Hf) as (f' & Hrow & Hcases).
  exists f'. split; [done|].
  destruct Hcases as [->|[(Hst & Hid & Hatt)|(Hst & Hatt)]]; [done| |].
  - unfold settled. rewrite Hst. repeat split; try done; lia.
  - unfold settled. rewrite Hst, Hatt. repeat split; done.
Qed.

(** One turn of the sync continuation: where it goes next. *)
Lemma uploadToDriveAsync_turn id pc w :
  ∃ pc' w', uploadToDriveAsync id pc w = (Ok pc', w')
    ∧ (pc = SyncDone ∨ pc = SyncRefetch → pc' = SyncDone)
    ∧ (w' = w
       ∨ (pc = SyncRefetch
          ∧ ∃ f, files w !! id = Some f ∧ virusScanStatus f = clean
                 ∧ w' = (DriveService.uploadFile (options_of f) w).2)).
Proof.
  destruct (uploadToDriveAsync_effect id pc w) as (pc' & w' & Hrun & Heffect).
  exists pc', w'. split; [done|]. split; [|done].
  intros [->| ->]; revert Hrun;
    unfold uploadToDriveAsync, try_catch, bind, gets, ret, throw; cbn.
  - congruence.
  - destruct (files w !! id) as [f|]; cbn; [|congruence].
    destruct (decide _); cbn; [congruence|].
    destruct (DriveService.uploadFile (options_of f) w) as [[res|e] w1]; cbn; congruence.
Qed.

(** The invariant carries over a change of one row and of its
    continuation. *)
Lemma sync_inv_step w w' id :
  sync_inv w → gate_inv w' →
  (∀ id', id' ≠ id → files w' !! id' = files w !! id') →
  (∀ id' t', id' ≠ id → tasks w' !! id' = Some t' →
             ∃ t, tasks w !! id' = Some t ∧ sync_pc t' = sync_pc t) →
  (∀ f', files w' !! id = Some f' →
         settled f'
         ∧ ∀ t', tasks w' !! id = Some t' → driveSyncStatus f' ≠ PENDING →
                 sync_pc t' = SyncDone) →
  sync_inv w'.
Proof.
  intros [Hgate Hrows Hdone] Hgate' Hfiles Htasks Hrow. split; [done| |].
  - intros id0 f0 Hf0. destruct (decide (id0 = id)) as [->|Hne].
    + by apply Hrow.
    + rewrite Hfiles in Hf0 by done. eauto.
  - intros id0 f0 t0 Hf0 Ht0 Hst. destruct (decide (id0 = id)) as [->|Hne].
    + by apply (Hrow f0 Hf0).
    + rewrite Hfiles in Hf0 by done. destruct (Htasks _ _ Hne Ht0) as (t & Ht & ->).
      eauto.
Qed.

Lemma sync_inv_same_tables w w' : same_tables w w' → sync_inv w → sync_inv w'.
Proof.
  intros Hsame [Hgate Hrows Hdone].
  pose proof (gate_inv_same_tables w w' Hsame Hgate) as Hgate'.
  destruct Hsame as (Hfiles & Htasks & _).
  split; [done|..]; rewrite ?Hfiles, ?Htasks; done.
Qed.

(** A run of [DriveService.uploadFile] for the row [id], followed by an
    update of the continuation of [id]. *)
Lemma sync_inv_upload w id f (g : gmap string Task → gmap string Task) :
  sync_inv w → files w !! id = Some f →
  gate_inv (set_tasks g (DriveService.uploadFile (options_of f) w).2) →
  (∀ id' t', id' ≠ id → g (tasks w) !! id' = Some t' →
             ∃ t, tasks w !! id' = Some t ∧ sync_pc t' = sync_pc t) →
  (∀ t', g (tasks w) !! id = Some t' → sync_pc t' = SyncDone) →
  sync_inv (set_tasks g (DriveService.uploadFile (options_of f) w).2).
Proof.
  intros Hinv Hf Hgate' Hothers Hmine.
  pose proof (inv_key w (si_gate w Hinv) id f Hf) as Hid.
  pose proof (uploadFile_frame (options_of f) w) as Hframe. cbn in Hframe.
  rewrite Hid in Hframe.
  apply (sync_inv_step w _ id); [done..| | |].
  - intros id' Hne. cbn. by apply (sf_files_other _ _ _ Hframe).
  - intros id' t' Hne. cbn. rewrite (sf_tasks _ _ _ Hframe). by apply Hothers.
  - intros f'. cbn. intros Hf'.
    destruct (settled_after_upload (options_of f) w f) as (f1 & Hf1 & Hsettled).
    { cbn. by rewrite Hid. }
    { by apply (si_rows w Hinv id). }
    cbn in Hf1. rewrite Hid in Hf1. rewrite Hf1 in Hf'. injection Hf' as <-.
    split; [done|]. intros t'. rewrite (sf_tasks _ _ _ Hframe). intros Ht' _.
    by apply Hmine.
Qed.

Lemma sync_inv_retry w w' id :
  sync_inv w → gate_inv w' →
  (w' = w ∨ ∃ f, files w !! id = Some f ∧ driveSyncStatus f = FAILED
                 ∧ w' = (DriveService.uploadFile (options_of f) w).2) →
  sync_inv w'.
Proof.
  intros Hinv Hgate' [->|(f & Hf & Hfailed & ->)]; [done|].
  apply (sync_inv_same_tables
           (set_tasks (λ m, m) (DriveService.uploadFile (options_of f) w).2));
    [by repeat split|].
  apply (sync_inv_upload w id f (λ m, m)); [done|done| | |].
  - apply (gate_inv_same_tables (DriveService.uploadFile (options_of f) w).2);
      [by repeat split|done].
  - eauto.
  - intros t' Ht'. apply (si_done w Hinv id f t'); [done..|]. by rewrite Hfailed.
Qed.

Lemma sync_inv_event w ev : sync_inv w → sync_inv (step w ev).
Proof.
  intros Hinv. pose proof (gate_inv_event w ev (si_gate w Hinv)) as Hgate'.
  destruct ev as [dto uuid newId wo|id version scan|id|id|id|id|y m sid r|sid|dt];
    simpl in *.
  - (* upload *)
    unfold exec in *.
    destruct (uploadFile_effect dto uuid newId wo w)
      as [Hsame|(Hfresh & f0 & t0 & Hfiles & Htasks & _ & _ & _ & Hnever & _)].
    { by apply (sync_inv_same_tables w). }
    apply (sync_inv_step w _ newId); [done..| | |].
    + intros id' Hne. by rewrite Hfiles, lookup_insert_ne.
    + intros id' t' Hne. rewrite Htasks, lookup_insert_ne by done. eauto.
    + intros f'. rewrite Hfiles, lookup_insert_eq. intros [= <-].
      destruct Hnever as (Hst & Hatt & Hid). split.
      * unfold settled, never_synced. rewrite Hst, Hatt, Hid. by repeat split.
      * intros t' _ Hne. by destruct Hne.
  - (* scan *)
    unfold run_scan in *. destruct (tasks w !! id) as [t|] eqn:Ht; [|done].
    destruct (scanFileAsync_effect id (task_filePath t)
                (scanWithClamAV (development (config w)) version scan) (scan_pc t) w)
      as (pc' & w1 & Hrun & Htasks & _ & Hother & Hrow).
    rewrite Hrun in *. apply (sync_inv_step w _ id); [done..| | |].
    + intros id' Hne. cbn. by apply Hother.
    + intros id' t' Hne. cbn. rewrite Htasks, lookup_insert_ne by done. eauto.
    + intros f'. cbn. intros Hf'. destruct (files w !! id) as [f|] eqn:Hf.
      * destruct Hrow as (f1 & Hf1 & Hkeeps & _). rewrite Hf1 in Hf'. injection Hf' as <-.
        split; [by apply (settled_keeps_sync f), (si_rows w Hinv id)|].
        rewrite lookup_insert_eq. intros t' [= <-] Hst. cbn.
        apply (si_done w Hinv id f t); [done..|].
        destruct Hkeeps as (_ & <- & _). done.
      * by rewrite Hrow in Hf'.
  - (* sync *)
    unfold run_sync in *. destruct (tasks w !! id) as [t|] eqn:Ht; [|done].
    destruct (uploadToDriveAsync_turn id (sync_pc t) w)
      as (pc' & w1 & Hrun & Hpc & [->|(Hat & f & Hf & Hclean & ->)]).
    + rewrite Hrun in *. apply (sync_inv_step w _ id); [done..| | |].
      * by intros.
      * intros id' t' Hne. cbn. rewrite lookup_insert_ne by done. eauto.
      * intros f'. cbn. intros Hf'. split; [by apply (si_rows w Hinv id)|].
        rewrite lookup_insert_eq. intros t' [= <-] Hst. cbn. apply Hpc. left.
        by apply (si_done w Hinv id f' t).
    + rewrite Hrun in *. apply (sync_inv_upload w id f); [done..| |].
      * intros id' t' Hne. rewrite lookup_insert_ne by done. eauto.
      * rewrite lookup_insert_eq. intros t' [= <-]. cbn. apply Hpc. by right.
  - apply (sync_inv_retry w _ id); [done..|]. apply retryDriveSync_effect.
  - apply (sync_inv_retry w _ id); [done..|]. apply retryFailedSync_effect.
  - (* delete *)
    unfold exec in *.
    destruct (deleteFile_effect id w) as (Htasks & _ & Hother & Hrow).
    apply (sync_inv_step w _ id); [done..| | |].
    + done.
    + intros id' t' _. rewrite Htasks. eauto.
    + intros f' Hf'. rewrite Hf' in Hrow.
      destruct (files w !! id) as [f|] eqn:Hf; inversion Hrow as [? ? [Hkeeps _]|]; subst.
      split; [by apply (settled_keeps_sync f), (si_rows w Hinv id)|].
      rewrite Htasks. intros t' Ht' Hst. apply (si_done w Hinv id f t'); [done..|].
      destruct Hkeeps as (_ & <- & _). done.
  - apply (sync_inv_same_tables w); [|done]. apply same_tables_createSubmissionFolder.
  - apply (sync_inv_same_tables w); [|done]. apply same_tables_archiveSubmission.
  - apply (sync_inv_same_tables w); [by repeat split | done].
Qed.

Lemma reachable_sync_inv w : reachable w → sync_inv w.
Proof.
  induction 1 as [w (Hfiles & Htasks & Hlog)|w ev _ IH].
  - split; [by apply gate_inv_initial|..]; intros id f; by rewrite Hfiles, lookup_empty.
  - by apply sync_inv_event.
Qed.



Lemma keeps_sync_refl f : keeps_sync f f.
Proof. by repeat split. Qed.

Lemma keeps_sync_trans f g h : keeps_sync f g → keeps_sync g h → keeps_sync f h.
Proof. intros (? & ? & ? & ?) (? & ? & ? & ?). repeat split; congruence. Qed.

(** A row that is not FAILED and whose sync continuation is over keeps
    its sync columns over any event. *)
Lemma resting_step w ev id f :
  sync_inv w → files w !! id = Some f → driveSyncStatus f ≠ FAILED →
  (∀ t, tasks w !! id = Some t → sync_pc t = SyncDone) →
  ∃ f', files (step w ev) !! id = Some f' ∧ keeps_sync f f'
        ∧ (∀ t, tasks (step w ev) !! id = Some t → sync_pc t = SyncDone).
Proof.
  intros Hinv Hf Hst Hdone.
  assert (∀ w', same_tables w w' →
            ∃ f', files w' !! id = Some f' ∧ keeps_sync f f'
                  ∧ (∀ t, tasks w' !! id = Some t → sync_pc t = SyncDone)) as Hsame.
  { intros w' (Hfiles & Htasks & _). rewrite Hfiles, Htasks. exists f.
    split; [done|]. split; [apply keeps_sync_refl|done]. }
  assert (∀ id0 f0, id0 ≠ id → files w !! id0 = Some f0 →
            ∃ f', files (DriveService.uploadFile (options_of f0) w).2 !! id = Some f'
                  ∧ keeps_sync f f'
                  ∧ tasks (DriveService.uploadFile (options_of f0) w).2 = tasks w)
    as Hupload.
  { intros id0 f0 Hne Hf0.
    pose proof (inv_key w (si_gate w Hinv) id0 f0 Hf0) as Hid.
    pose proof (uploadFile_frame (options_of f0) w) as Hframe. cbn in Hframe.
    rewrite Hid in Hframe. exists f.
    rewrite (sf_files_other _ _ _ Hframe) by done.
    split; [done|]. split; [apply keeps_sync_refl|apply Hframe]. }
  assert (∀ id0 w', (w' = w ∨ ∃ f0, files w !! id0 = Some f0 ∧ driveSyncStatus f0 = FAILED
                       ∧ w' = (DriveService.uploadFile (options_of f0) w).2) →
            ∃ f', files w' !! id = Some f' ∧ keeps_sync f f'
                  ∧ (∀ t, tasks w' !! id = Some t → sync_pc t = SyncDone)) as Hretry.
  { intros id0 w' [->|(f0 & Hf0 & Hfailed & ->)].
    - exists f. split; [done|]. split; [apply keeps_sync_refl|done].
    - destruct (decide (id0 = id)) as [->|Hne]; [congruence|].
      destruct (Hupload id0 f0 Hne Hf0) as (f' & Hf' & Hkeeps & Htasks).
      exists f'. rewrite Htasks. done. }
  destruct ev as [dto uuid newId wo|id0 version scan|id0|id0|id0|id0|y m sid r|sid|dt];
    simpl.
  - (* upload *)
    unfold exec.
    destruct (uploadFile_effect dto uuid newId wo w)
      as [Hs|(Hfresh & f0 & t0 & Hfiles & Htasks & _)]; [by apply Hsame|].
    assert (id ≠ newId) as Hne by congruence.
    rewrite Hfiles, Htasks, !lookup_insert_ne by done.
    exists f. split; [done|]. split; [apply keeps_sync_refl|done].
  - (* scan *)
    unfold run_scan. destruct (tasks w !! id0) as [t|] eqn:Ht;
      [|exists f; split; [done|]; split; [apply keeps_sync_refl|done]].
    destruct (scanFileAsync_effect id0 (task_filePath t)
                (scanWithClamAV (development (config w)) version scan) (scan_pc t) w)
      as (pc' & w1 & Hrun & Htasks & _ & Hother & Hrow).
    rewrite Hrun. cbn. rewrite Htasks. destruct (decide (id0 = id)) as [->|Hne].
    + rewrite Hf in Hrow. destruct Hrow as (f' & Hf' & Hkeeps & _).
      exists f'. split; [done|]. split; [done|].
      rewrite lookup_insert_eq. intros t' [= <-]. cbn. by apply Hdone.
    + rewrite Hother, lookup_insert_ne by done.
      exists f. split; [done|]. split; [apply keeps_sync_refl|done].
  - (* sync *)
    unfold run_sync. destruct (tasks w !! id0) as [t|] eqn:Ht;
      [|exists f; split; [done|]; split; [apply keeps_sync_refl|done]].
    destruct (uploadToDriveAsync_turn id0 (sync_pc t) w)
      as (pc' & w1 & Hrun & Hpc & Heffect).
    rewrite Hrun. cbn. destruct (decide (id0 = id)) as [->|Hne].
    + pose proof (Hdone t Ht) as Hover. rewrite Hover in Hpc, Heffect.
      destruct Heffect as [->|([=] & _)].
      exists f. split; [done|]. split; [apply keeps_sync_refl|].
      rewrite lookup_insert_eq. intros t' [= <-]. cbn. apply Hpc. by left.
    + rewrite lookup_insert_ne by done.
      destruct Heffect as [->|(_ & f0 & Hf0 & _ & ->)].
      * exists f. split; [done|]. split; [apply keeps_sync_refl|done].
      * destruct (Hupload id0 f0 Hne Hf0) as (f' & Hf' & Hkeeps & Htasks).
        exists f'. rewrite Htasks. done.
  - apply (Hretry id0). apply retryDriveSync_effect.
  - apply (Hretry id0). apply retryFailedSync_effect.
  - (* delete *)
    unfold exec. destruct (deleteFile_effect id0 w) as (Htasks & _ & Hother & Hrow).
    rewrite Htasks. destruct (decide (id0 = id)) as [->|Hne].
    + rewrite Hf in Hrow. inversion Hrow as [? f' [Hkeeps _] Heq1 Heq2|]; subst.
      exists f'. done.
    + rewrite Hother by done. exists f. split; [done|]. split; [apply keeps_sync_refl|done].
  - apply Hsame, same_tables_createSubmissionFolder.
  - apply Hsame, same_tables_archiveSubmission.
  - apply Hsame. by repeat split.
Qed.

Lemma resting_run w evs id f :
  sync_inv w → files w !! id = Some f → driveSyncStatus f ≠ FAILED →
  (∀ t, tasks w !! id = Some t → sync_pc t = SyncDone) →
  ∃ f', files (run w evs) !! id = Some f' ∧ keeps_sync f f'.
Proof.
  revert w f. induction evs as [|ev evs IH]; intros w f Hinv Hf Hst Hdone; simpl.
  { exists f. split; [done|apply keeps_sync_refl]. }
  destruct (resting_step w ev id f Hinv Hf Hst Hdone) as (f1 & Hf1 & Hkeeps & Hdone1).
  destruct (IH (step w ev) f1) as (f' & Hf' & Hkeeps'); [by apply sync_inv_event|done| |done|].
  { destruct Hkeeps as (_ & -> & _). done. }
  exists f'. split; [done|]. by apply (keeps_sync_trans f f1).
Qed.


(** A row still PENDING when its sync continuation is over stays PENDING:
    the continuation does not run again, and a retry takes FAILED rows
    only.  So a clean file whose sync turn found no folder, or came before
    the end of the scan, is never uploaded. *)
Theorem pending_after_sync_is_final w evs id f t :
  reachable w →
  files w !! id = Some f →
  tasks w !! id = Some t →
  driveSyncStatus f = PENDING →
  sync_pc t = SyncDone →
  ∃ f', files (run w evs) !! id = Some f'
        ∧ driveSyncStatus f' = PENDING
        ∧ driveSyncAttempts f' = 0%Z
        ∧ googleDriveId f' = None.
Proof.
  intros Hreach Hf Ht Hst Hover. pose proof (reachable_sync_inv w Hreach) as Hinv.
  destruct (si_rows w Hinv id f Hf) as (_ & Hpending & _).
  destruct (Hpending Hst) as (_ & Hatt & Hid).
  destruct (resting_run w evs id f Hinv Hf) as (f' & Hf' & _ & Hst' & Hatt' & Hid').
  - by rewrite Hst.
  - intros t'. rewrite Ht. by intros [= <-].
  - exists f'. rewrite Hst', Hatt', Hid'. done.
Qed.

Lemma nothing_lost_refl w : nothing_lost w w.
Proof. split; [done|]. eauto. Qed.

Lemma nothing_lost_trans w1 w2 w3 :
  nothing_lost w1 w2 → nothing_lost w2 w3 → nothing_lost w1 w3.
Proof.
  intros [Hlog1 Hrows1] [Hlog2 Hrows2]. split; [by etrans|].
  intros id f Hf. destruct (Hrows1 id f Hf) as (f1 & Hf1 & <-). eauto.
Qed.

Lemma nothing_lost_same_tables w w' : same_tables w w' → nothing_lost w w'.
Proof. intros (Hfiles & _ & Hlog). split; rewrite ?Hfiles, ?Hlog; eauto. Qed.

Lemma nothing_lost_frame fid w w' : sync_frame fid w w' → nothing_lost w w'.
Proof.
  intros Hframe. split.
  - destruct (sf_log _ _ _ Hframe) as (rows & -> & _). by apply prefix_app_r.
  - intros id f Hf. destruct (decide (id = fid)) as [->|Hne].
    + pose proof (sf_files_same _ _ _ Hframe) as Hrow. rewrite Hf in Hrow.
      inversion Hrow as [? f' [Hid _]|]; subst. eauto.
    + rewrite (sf_files_other _ _ _ Hframe) by done. eauto.
Qed.

Lemma nothing_lost_retask w w' g : nothing_lost w w' → nothing_lost w (set_tasks g w').
Proof. done. Qed.

Lemma nothing_lost_step w ev : nothing_lost w (step w ev).
Proof.
  assert (∀ id0 w', (w' = w ∨ ∃ f0, files w !! id0 = Some f0 ∧ driveSyncStatus f0 = FAILED
                       ∧ w' = (DriveService.uploadFile (options_of f0) w).2) →
            nothing_lost w w') as Hretry.
  { intros id0 w' [->|(f0 & _ & _ & ->)]; [apply nothing_lost_refl|].
    eapply nothing_lost_frame, uploadFile_frame. }
  destruct ev as [dto uuid newId wo|id0 version scan|id0|id0|id0|id0|y m sid r|sid|dt];
    simpl.
  - unfold exec.
    destruct (uploadFile_effect dto uuid newId wo w)
      as [Hs|(Hfresh & f0 & t0 & Hfiles & _ & Hlog & _)];
      [by apply nothing_lost_same_tables|].
    split; [by rewrite Hlog|]. intros id f Hf. rewrite Hfiles.
    rewrite lookup_insert_ne by congruence. eauto.
  - unfold run_scan. destruct (tasks w !! id0) as [t|]; [|apply nothing_lost_refl].
    destruct (scanFileAsync_effect id0 (task_filePath t)
                (scanWithClamAV (development (config w)) version scan) (scan_pc t) w)
      as (pc' & w1 & Hrun & _ & Hlog & Hother & Hrow).
    rewrite Hrun. apply nothing_lost_retask. split; [by rewrite Hlog|].
    intros id f Hf. destruct (decide (id = id0)) as [->|Hne].
    + rewrite Hf in Hrow. destruct Hrow as (f' & Hf' & (Hid & _) & _). eauto.
    + rewrite Hother by done. eauto.
  - unfold run_sync. destruct (tasks w !! id0) as [t|]; [|apply nothing_lost_refl].
    destruct (uploadToDriveAsync_effect id0 (sync_pc t) w)
      as (pc' & w1 & Hrun & [->|(_ & f0 & _ & _ & ->)]);
      rewrite Hrun; apply nothing_lost_retask; [apply nothing_lost_refl|].
    eapply nothing_lost_frame, uploadFile_frame.
  - apply (Hretry id0), retryDriveSync_effect.
  - apply (Hretry id0), retryFailedSync_effect.
  - unfold exec. destruct (deleteFile_effect id0 w) as (_ & Hlog & Hother & Hrow).
    split; [by rewrite Hlog|]. intros id f Hf. destruct (decide (id = id0)) as [->|Hne].
    + rewrite Hf in Hrow. inversion Hrow as [? f' [(Hid & _) _]|]; subst. eauto.
    + rewrite Hother by done. eauto.
  - apply nothing_lost_same_tables, same_tables_createSubmissionFolder.
  - apply nothing_lost_same_tables, same_tables_archiveSubmission.
  - apply nothing_lost_same_tables. by repeat split.
Qed.

(** Nothing is ever removed: over any sequence of events, from any store,
    the ledger only grows at its end, and every file row stays in the table
    under its id.  Deletion, the purge of an infected file and a failed
    sync all keep the row. *)
Theorem run_loses_nothing w evs :
  driveSyncLog w `prefix_of` driveSyncLog (run w evs)
  ∧ ∀ id f, files w !! id = Some f →
            ∃ f', files (run w evs) !! id = Some f' ∧ file_id f' = file_id f.
Proof.
  change (nothing_lost w (run w evs)).
  revert w. induction evs as [|ev evs IH]; intros w; simpl; [apply nothing_lost_refl|].
  eapply nothing_lost_trans; [apply nothing_lost_step|apply IH].
Qed.

End sync_columns.



Lemma pending_after_sync_is_final_witness :
  ∃ f', files (Sample.play Sample.stranded Sample.late_rescue) !! "f1" = Some f'
        ∧ driveSyncStatus f' = PENDING
        ∧ driveSyncAttempts f' = 0%Z
        ∧ googleDriveId f' = None.
Proof.
  eapply (@pending_after_sync_is_final posix_path Sample.stranded Sample.late_rescue "f1").
  - apply reachable_run. constructor. repeat split; reflexivity.
  - vm_compute. reflexivity.
  - vm_compute. reflexivity.
  - reflexivity.
  - reflexivity.
Defined.
